(** * Corpus statistics: frequency accumulation, smoothed entropy, rank-frequency

    A shallow embedding of [Chinese.py] and [SHAKESPEARE.py].

    - Python [str] values are lists of Unicode code points ([N]).
    - A [collections.Counter] is an insertion-ordered association list from
      strings to integer counts, as a Python [dict] iterates.
    - Python [int] is [Z]; Python [float] is an abstract arithmetic
      ([PyFloat]) with the exceptions its operations raise. What is said
      of the entropy loop holds in every such arithmetic; [binary64] is
      the [float] of CPython; the real numbers give the exact value of
      the sum, which the bounds are about.
    - [jieba.lcut] and the Unicode tables behind [str.lower], [str.isspace]
      and the regular expression class [\w] are outside the repository: they
      are parameters of the embedding. *)

From Stdlib Require Import Strings.Ascii Strings.String.
From Stdlib Require Import List Bool Arith ZArith NArith Lia.
From Stdlib Require Import Sorting.Permutation Sorting.Sorted.
From Stdlib Require Import Reals Lra.
From Stdlib Require Floats.
Import ListNotations.

(* ================================================================== *)
(** * Part I: definitions *)
(* ================================================================== *)

(** ** Python strings *)

Module Py.

(** A code point. *)
Abbreviation char := N (only parsing).

(** A Python [str]: a sequence of code points. *)
Abbreviation str := (list N) (only parsing).

Definition str_eq_dec : forall s t : str, {s = t} + {s <> t} :=
  list_eq_dec N.eq_dec.

(** Bytes of a source literal, and their UTF-8 decoding: only used to write
    Python string literals readably, as [u "..."]. *)
Fixpoint bytes_of (s : String.string) : list N :=
  match s with
  | String.EmptyString => []
  | String.String a r => N_of_ascii a :: bytes_of r
  end.

Fixpoint utf8_decode (bs : list N) : str :=
  match bs with
  | [] => []
  | b :: r =>
      if (b <? 0x80)%N then b :: utf8_decode r
      else if (b <? 0xE0)%N then
        match r with
        | c1 :: r1 => ((b - 0xC0) * 64 + (c1 - 0x80))%N :: utf8_decode r1
        | _ => []
        end
      else if (b <? 0xF0)%N then
        match r with
        | c1 :: c2 :: r2 =>
            ((b - 0xE0) * 4096 + (c1 - 0x80) * 64 + (c2 - 0x80))%N
              :: utf8_decode r2
        | _ => []
        end
      else
        match r with
        | c1 :: c2 :: c3 :: r3 =>
            ((b - 0xF0) * 262144 + (c1 - 0x80) * 4096
             + (c2 - 0x80) * 64 + (c3 - 0x80))%N :: utf8_decode r3
        | _ => []
        end
  end.

Definition u (s : String.string) : str := utf8_decode (bytes_of s).

Arguments u s%_string.

(** [s.replace(c, '')] for a one-character pattern [c]. *)
Definition remove_char (c : char) (s : str) : str :=
  filter (fun x => negb (x =? c)%N) s.

(** [s.split(sep)] for a one-character separator: always at least one
    fragment, empty fragments kept. *)
Fixpoint split (sep : char) (s : str) : list str :=
  match s with
  | [] => [[]]
  | c :: r =>
      if (c =? sep)%N then [] :: split sep r
      else match split sep r with
           | f :: fs => (c :: f) :: fs
           | [] => [[c]]
           end
  end.

(** Truth value of a string: [if s] holds for a non-empty string. *)
Definition truthy (s : str) : bool :=
  match s with [] => false | _ :: _ => true end.

(** [list(s)]: the characters of [s], each a one-character string. *)
Definition chars_of (s : str) : list str := map (fun c => [c]) s.

(** [len(xs)] as a Python integer. *)
Definition len {A : Type} (xs : list A) : Z := Z.of_nat (length xs).

(** [sum(xs)] over integers. *)
Definition sum (xs : list Z) : Z := fold_right Z.add 0%Z xs.

(** [np.arange(lo, hi)] over integers. *)
Definition arange (lo hi : Z) : list Z :=
  map (fun i => (lo + Z.of_nat i)%Z) (seq 0 (Z.to_nat (hi - lo))).

(** [sorted(xs, reverse=True)] on integers: a stable sort into descending
    order, by insertion. *)
Fixpoint insert_desc (x : Z) (l : list Z) : list Z :=
  match l with
  | [] => [x]
  | y :: r => if (x <? y)%Z then y :: insert_desc x r else x :: y :: r
  end.

Definition sorted_reverse (xs : list Z) : list Z :=
  fold_right insert_desc [] xs.

(** A non-increasing sequence: no element is below a later one. *)
Definition non_increasing (xs : list Z) : Prop :=
  StronglySorted (fun a b => (b <= a)%Z) xs.

(** The ranks [1..n]. *)
Definition ranks (n : nat) : list Z := map Z.of_nat (seq 1 n).

End Py.

(** ** [collections.Counter] *)

Module Counter.
Import Py.

(** Items in insertion order; a key occurs at most once in a counter built
    by [update] from [empty]. *)
Definition t := list (str * Z).

Definition empty : t := [].

(** [c[k]]: the count of [k], [0] when [k] is absent. *)
Fixpoint get (c : t) (k : str) : Z :=
  match c with
  | [] => 0%Z
  | (k', v) :: r => if str_eq_dec k' k then v else get r k
  end.

(** [c[k] = c.get(k, 0) + 1]: an existing key keeps its position, a new key
    goes last. *)
Fixpoint incr (c : t) (k : str) : t :=
  match c with
  | [] => [(k, 1%Z)]
  | (k', v) :: r =>
      if str_eq_dec k' k then (k', (v + 1)%Z) :: r else (k', v) :: incr r k
  end.

(** [c.update(elems)]: one [incr] per element, left to right. *)
Definition update (c : t) (elems : list str) : t := fold_left incr elems c.

Definition keys (c : t) : list str := map fst c.
Definition values (c : t) : list Z := map snd c.

(** [len(c)]: the number of distinct keys. *)
Definition size (c : t) : Z := len c.

(** A counter as [update] builds it from [empty]: no key twice, every
    count at least one. *)
Definition well_formed (c : t) : Prop :=
  NoDup (keys c) /\ Forall (fun v => (1 <= v)%Z) (values c).

(** Equality of counters as Python's [==] on dictionaries decides it: the
    same count for every key, whatever the insertion order. *)
Definition eqv (c1 c2 : t) : Prop := forall k, get c1 k = get c2 k.

(** The same table: equal as dictionaries, and the same items up to the
    order of insertion. *)
Definition same (c1 c2 : t) : Prop := eqv c1 c2 /\ Permutation c1 c2.

(** The sum over the items [(k, v)] of [len(k) * v]. *)
Definition weight (c : t) : Z :=
  sum (map (fun kv => (len (fst kv) * snd kv)%Z) c).

End Counter.

(** ** Python floats and the exceptions of their operations *)

Module PyFloat.

Inductive exn : Set := ZeroDivisionError | ValueError | OverflowError.

Inductive result (A : Type) : Type :=
| Ok (a : A)
| Raise (e : exn).

Arguments Ok {A} a.
Arguments Raise {A} e.

Definition bind {A B : Type} (m : result A) (k : A -> result B) : result B :=
  match m with
  | Ok a => k a
  | Raise e => Raise e
  end.

(** The float operations [calculate_entropy] uses. [+], [-] and [*] never
    raise; [/] raises [ZeroDivisionError] on a zero divisor, [math.log2]
    raises [ValueError] outside its domain, and the conversion of an [int]
    operand raises [OverflowError] when it is too large. *)
Class Arith (F : Type) : Type := {
  zero : F;
  literal : Z -> Z -> F;
  of_int : Z -> result F;
  add : F -> F -> F;
  sub : F -> F -> F;
  mul : F -> F -> F;
  div : F -> F -> result F;
  log2 : F -> result F
}.

(** [for x in xs: acc = step(acc, x)], stopping at the first exception. *)
Fixpoint for_each {A F : Type} (step : F -> A -> result F) (xs : list A)
  (acc : F) : result F :=
  match xs with
  | [] => Ok acc
  | x :: r => bind (step acc x) (for_each step r)
  end.

(** Exact arithmetic, the reading of the specification: the operations of
    the real numbers, with the two exceptions a real argument can cause.
    It is not the arithmetic of the program: nothing here rounds,
    underflows or overflows, and the conversion of an integer never
    raises. A statement made in it says so; the [float] of CPython is
    [binary64] below. *)
Definition Rlog2 (x : R) : R := (ln x / ln 2)%R.

Definition Rdiv_py (x y : R) : result R :=
  if Req_dec_T y 0 then Raise ZeroDivisionError else Ok (x / y)%R.

Definition Rlog2_py (x : R) : result R :=
  if Rle_dec x 0 then Raise ValueError else Ok (Rlog2 x).

#[global]
Instance exact : Arith R := {|
  zero := 0%R;
  literal := fun m e => (IZR m * powerRZ 10 e)%R;
  of_int := fun z => Ok (IZR z);
  add := Rplus;
  sub := Rminus;
  mul := Rmult;
  div := Rdiv_py;
  log2 := Rlog2_py
|}.

(** IEEE 754 binary64, the [float] of CPython. [math.log2] belongs to the
    C library: it is a parameter, consulted on positive arguments only. *)
Section Binary64.
Variable log2_libm : PrimFloat.float -> PrimFloat.float.

(** The float nearest to an integer (ties to even), infinite past the
    largest float. *)
Definition float_of_Z (z : Z) : PrimFloat.float :=
  FloatOps.SF2Prim
    (SpecFloat.binary_normalize FloatOps.prec FloatOps.emax z 0 false).

Definition binary64_of_int (z : Z) : result PrimFloat.float :=
  let f := float_of_Z z in
  if PrimFloat.is_infinity f then Raise OverflowError else Ok f.

(** The decimal literal of mantissa [m] and exponent [e]: correctly rounded
    as long as [m] and the power of ten are floats themselves, as in
    [1e-5] and [1e-10]. *)
Definition binary64_literal (m e : Z) : PrimFloat.float :=
  if (e <? 0)%Z
  then PrimFloat.div (float_of_Z m) (float_of_Z (10 ^ (- e)))
  else float_of_Z (m * 10 ^ e).

Definition binary64_div (x y : PrimFloat.float) : result PrimFloat.float :=
  if PrimFloat.eqb y PrimFloat.zero then Raise ZeroDivisionError
  else Ok (PrimFloat.div x y).

Definition binary64_log2 (x : PrimFloat.float) : result PrimFloat.float :=
  if PrimFloat.leb x PrimFloat.zero then Raise ValueError
  else Ok (log2_libm x).

Definition binary64 : Arith PrimFloat.float := {|
  zero := PrimFloat.zero;
  literal := binary64_literal;
  of_int := binary64_of_int;
  add := PrimFloat.add;
  sub := PrimFloat.sub;
  mul := PrimFloat.mul;
  div := binary64_div;
  log2 := binary64_log2
|}.

End Binary64.

End PyFloat.

Notation "x <- m ;; k" := (PyFloat.bind m (fun x => k))
  (at level 61, m at next level, right associativity).

(** ** [Chinese.py]: the streaming pipeline *)

Module Chinese.
Import Py.

(** The sentence terminator, U+3002. *)
Definition full_stop : char := 0x3002%N.

(** The character class [[一-龥。]]. *)
Definition kept (c : char) : bool :=
  ((0x4e00 <=? c)%N && (c <=? 0x9fa5)%N) || (c =? full_stop)%N.

(** [re.sub(r'[^一-龥。]', '', text)]. *)
Definition clean (text : str) : str := filter kept text.

Record ProcessingPipeline : Type := mkPipeline {
  char_counter : Counter.t;
  word_counter : Counter.t;
  sentence_counter : Counter.t;
  total_chars : Z;
  total_words : Z;
  total_sentences : Z
}.

(** [ProcessingPipeline.__init__]. *)
Definition init : ProcessingPipeline :=
  mkPipeline Counter.empty Counter.empty Counter.empty 0 0 0.

Definition _count_chars (self : ProcessingPipeline) (text : str)
  : ProcessingPipeline :=
  let chars := chars_of (remove_char full_stop text) in
  mkPipeline (Counter.update (char_counter self) chars)
             (word_counter self) (sentence_counter self)
             (total_chars self + len chars)
             (total_words self) (total_sentences self).

Definition _count_words (self : ProcessingPipeline) (words : list str)
  : ProcessingPipeline :=
  mkPipeline (char_counter self)
             (Counter.update (word_counter self) words)
             (sentence_counter self)
             (total_chars self)
             (total_words self + len words)
             (total_sentences self).

Definition _count_sentences (self : ProcessingPipeline) (sentences : list str)
  : ProcessingPipeline :=
  mkPipeline (char_counter self) (word_counter self)
             (Counter.update (sentence_counter self) sentences)
             (total_chars self) (total_words self)
             (total_sentences self + len sentences).

(** The fragments [[s for s in text.split('。') if s]]. *)
Definition sentences_of (text : str) : list str :=
  filter truthy (split full_stop text).

Section Pipeline.

(** [jieba.lcut]: the segmenter of the [jieba] package. *)
Variable lcut : str -> list str.

Definition process_text (self : ProcessingPipeline) (text : str)
  : ProcessingPipeline :=
  let text := clean text in
  let self := _count_chars self text in
  let sentences := sentences_of text in
  let self := _count_sentences self sentences in
  let words := lcut (remove_char full_stop text) in
  _count_words self words.

(** What one block adds at each granularity. *)
Definition char_units (text : str) : list str :=
  chars_of (remove_char full_stop (clean text)).

Definition sentence_units (text : str) : list str :=
  sentences_of (clean text).

Definition word_units (text : str) : list str :=
  lcut (remove_char full_stop (clean text)).

(** The main loop: every block of the corpus, in order, into one pipeline. *)
Definition feed (self : ProcessingPipeline) (blocks : list str)
  : ProcessingPipeline :=
  fold_left process_text blocks self.

Definition run (blocks : list str) : ProcessingPipeline := feed init blocks.

End Pipeline.

(** The same statistics: every table the same, every total equal. *)
Definition same_stats (p q : ProcessingPipeline) : Prop :=
  Counter.same (char_counter p) (char_counter q) /\
  Counter.same (word_counter p) (word_counter q) /\
  Counter.same (sentence_counter p) (sentence_counter q) /\
  total_chars p = total_chars q /\
  total_words p = total_words q /\
  total_sentences p = total_sentences q.

(** The rank-frequency pairs of [results]: [np.arange(1, len(c)+1)] and
    [sorted(c.values(), reverse=True)]. *)
Definition zipf (c : Counter.t) : list Z * list Z :=
  (arange 1 (Counter.size c + 1), sorted_reverse (Counter.values c)).

Definition char_zipf (p : ProcessingPipeline) := zipf (char_counter p).
Definition word_zipf (p : ProcessingPipeline) := zipf (word_counter p).

Section Entropy.
Import PyFloat.
Context {F : Type} {A : Arith F}.

(** One iteration of the loop of [calculate_entropy]. *)
Definition entropy_step (counter : Counter.t) (total : Z) (alpha : F)
  (entropy : F) (count : Z) : result F :=
  c <- of_int count ;;
  n <- of_int (Counter.size counter) ;;
  t <- of_int total ;;
  prob <- div (add c alpha) (add t (mul alpha n)) ;;
  l <- log2 prob ;;
  Ok (sub entropy (mul prob l)).

Definition calculate_entropy (counter : Counter.t) (total : Z) (alpha : F)
  : result F :=
  for_each (entropy_step counter total alpha) (Counter.values counter) zero.

(** The default [alpha=1e-5]. *)
Definition default_alpha : F := literal 1 (-5).

End Entropy.

(** A segmenter used to run the pipeline on examples: one word per
    character. *)
Definition lcut_chars (s : str) : list str := chars_of s.

End Chinese.

(** ** The entropy of the specification *)

Module EntropySpec.

(** The smoothed probability of a unit with raw count [c]:
    [(c + alpha) / (total + alpha * N)], [N] the number of distinct units. *)
Definition smoothed_probability (c total : Z) (alpha : R) (N : Z) : R :=
  ((IZR c + alpha) / (IZR total + alpha * IZR N))%R.

Definition Rsum (xs : list R) : R := fold_right Rplus 0%R xs.

(** The sum over the units of the table of [-p * log2(p)]. *)
Definition entropy (table : Counter.t) (total : Z) (alpha : R) : R :=
  Rsum (map (fun c =>
               let p := smoothed_probability c total alpha
                          (Counter.size table) in
               (- (p * PyFloat.Rlog2 p))%R)
            (Counter.values table)).

Section InArithmetic.
Import PyFloat.
Context {F : Type} {A : Arith F}.

(** The smoothed probability [(c + alpha) / (total + alpha * N)] of a unit
    with raw count [c], in the arithmetic [A]: the integers are converted
    as they are met, and each operation may raise. *)
Definition probability_in (c total : Z) (alpha : F) (N : Z) : result F :=
  c' <- of_int c ;;
  n <- of_int N ;;
  t <- of_int total ;;
  div (add c' alpha) (add t (mul alpha n)).

(** The term [p * log2(p)] of a unit. *)
Definition term_in (c total : Z) (alpha : F) (N : Z) : result F :=
  p <- probability_in c total alpha N ;;
  l <- log2 p ;;
  Ok (mul p l).

(** The sum over the units of the table of [-p * log2(p)], in the
    arithmetic [A]: from [0.0], the term of each unit is subtracted in
    turn, in the order of the table; an exception ends the sum. *)
Definition sum_in (table : Counter.t) (total : Z) (alpha : F) : result F :=
  fold_left
    (fun acc c =>
       h <- acc ;;
       x <- term_in c total alpha (Counter.size table) ;;
       Ok (sub h x))
    (Counter.values table) (Ok zero).

End InArithmetic.

End EntropySpec.

(** ** The Unicode tables Python consults *)

Module Unicode.
Import Py.
Local Open Scope N_scope.

(** What the interpreter's Unicode database says about code points from
    U+0080 on. On ASCII the functions below are written out. *)
Record table : Type := mkTable {
  (** the lower-case expansion of a code point, given the text before and
      after it (it depends on them for the final sigma) *)
  lower_full : str -> char -> str -> str;
  (** [str.isspace] *)
  isspace : char -> bool;
  (** the class [\w] of a [str] pattern: alphanumeric *)
  isword : char -> bool
}.

Definition between (lo hi c : char) : bool := ((lo <=? c) && (c <=? hi))%N.

Definition ascii_lower (c : char) : char :=
  if between 65 90 c then (c + 32)%N else c.

Definition ascii_space (c : char) : bool :=
  between 9 13 c || between 28 32 c.

Definition ascii_word (c : char) : bool :=
  between 48 57 c || between 65 90 c || between 97 122 c || (c =? 95)%N.

Section Table.
Variable U : table.

Definition is_space (c : char) : bool :=
  if (c <? 128)%N then ascii_space c else isspace U c.

Definition is_word (c : char) : bool :=
  if (c <? 128)%N then ascii_word c else isword U c.

(** [s.lower()], character by character. *)
Fixpoint lower_from (before s : str) : str :=
  match s with
  | [] => []
  | c :: r =>
      (if (c <? 128)%N then [ascii_lower c] else lower_full U before c r)
        ++ lower_from (before ++ [c]) r
  end.

Definition lower (s : str) : str := lower_from [] s.

Fixpoint lstrip (s : str) : str :=
  match s with
  | [] => []
  | c :: r => if is_space c then lstrip r else s
  end.

Definition rstrip (s : str) : str := rev (lstrip (rev s)).

(** [s.strip()]. *)
Definition strip (s : str) : str := rstrip (lstrip s).

End Table.

(** A database with nothing above ASCII: enough to run ASCII examples, on
    which every database gives the same answers. *)
Definition ascii_only : table :=
  mkTable (fun _ c _ => [c]) (fun _ => false) (fun _ => false).

End Unicode.

(** ** [SHAKESPEARE.py]: the analyzer *)

Module Shakespeare.
Import Py.
Local Open Scope N_scope.

(** The dictionary [counts]. *)
Record Counts : Type := mkCounts {
  chars : Z;
  words : Z;
  files : Z
}.

Record LinguisticAnalyzer : Type := mkAnalyzer {
  char_stats : Counter.t;
  word_stats : Counter.t;
  counts : Counts
}.

(** [LinguisticAnalyzer.__init__]. *)
Definition init : LinguisticAnalyzer :=
  mkAnalyzer Counter.empty Counter.empty (mkCounts 0 0 0).

(** The class [[a-z]]. *)
Definition is_az (c : char) : bool := Unicode.between 97 122 c.

Definition apostrophe : char := 39%N.

(** The class [[a-z']]. *)
Definition in_class (c : char) : bool := is_az c || (c =? apostrophe)%N.

(** [re.findall(r'[a-z]', text)]. *)
Definition findall_az (text : str) : list str := chars_of (filter is_az text).

Section Regex.
Variable U : Unicode.table.

Definition word_at (o : option char) : bool :=
  match o with
  | Some c => Unicode.is_word U c
  | None => false
  end.

(** [\b] between the characters [prev] and [next] ([None] outside the
    text): exactly one of the two is a word character. *)
Definition boundary (prev next : option char) : bool :=
  xorb (word_at prev) (word_at next).

(** The repetition [{2,}] may stop, and [\b] hold, after [n] characters of
    the class, between [last] and [next]: the match is complete. *)
Definition stop_here (n : nat) (last next : option char) : option str :=
  if (2 <=? n)%nat && boundary last next then Some [] else None.

(** [[a-z']{2,}\b] after [n] characters of the class have been taken, the
    last of them [last]: greedy, so one more character is tried first, and
    the repetition stops here only when that fails. The result is the rest
    of the matched word. *)
Fixpoint repeat_class (n : nat) (last : option char) (s : str) : option str :=
  match s with
  | [] => stop_here n last None
  | c :: r =>
      if in_class c then
        match repeat_class (S n) (Some c) r with
        | Some w => Some (c :: w)
        | None => stop_here n last (Some c)
        end
      else stop_here n last (Some c)
  end.

(** One attempt of [\b[a-z']{2,}\b] at the position between [prev] and [s]. *)
Definition match_at (prev : option char) (s : str) : option str :=
  if boundary prev (hd_error s) then repeat_class 0 prev s else None.

(** The scan of [re.findall]: at each position the pattern is tried; after a
    match the scan resumes at its end ([skip] counts the characters of the
    match still to pass), otherwise one character further. *)
Fixpoint findall_from (skip : nat) (prev : option char) (s : str) : list str :=
  match s with
  | [] => []
  | c :: r =>
      match skip with
      | S k => findall_from k (Some c) r
      | O =>
          match match_at prev s with
          | Some w => w :: findall_from (length w - 1) (Some c) r
          | None => findall_from 0 (Some c) r
          end
      end
  end.

(** The character before the position reached after [w]. *)
Definition last_of (o : option char) (w : str) : option char :=
  fold_left (fun _ c => Some c) w o.

(** A character that is a letter [a-z] if it is a word character at all. *)
Definition plain_opt (o : option char) : Prop :=
  match o with
  | Some c => Unicode.is_word U c = true -> is_az c = true
  | None => True
  end.

(** The invariant of the scan on a plain text: after a letter that is not
    inside a match, no character of the class can be taken up to a
    boundary. *)
Definition quiet (prev : option char) (s : str) : Prop :=
  match prev with
  | Some l => is_az l = true -> repeat_class 1 prev s = None
  | None => True
  end.

(** [re.findall(r"\b[a-z']{2,}\b", text)]. *)
Definition findall_words (text : str) : list str := findall_from 0 None text.

Definition _clean_text (text : str) : str :=
  Unicode.strip U (Unicode.lower U text).

Definition _analyze_chars (self : LinguisticAnalyzer) (text : str)
  : LinguisticAnalyzer :=
  let chars := findall_az text in
  mkAnalyzer (Counter.update (char_stats self) chars) (word_stats self)
             (mkCounts (Shakespeare.chars (counts self) + len chars)
                       (Shakespeare.words (counts self))
                       (files (counts self))).

Definition _analyze_words (self : LinguisticAnalyzer) (text : str)
  : LinguisticAnalyzer :=
  let words := findall_words text in
  mkAnalyzer (char_stats self) (Counter.update (word_stats self) words)
             (mkCounts (Shakespeare.chars (counts self))
                       (Shakespeare.words (counts self) + len words)
                       (files (counts self))).

Definition process (self : LinguisticAnalyzer) (text : str)
  : LinguisticAnalyzer :=
  let clean_text := _clean_text text in
  let self := _analyze_chars self clean_text in
  let self := _analyze_words self clean_text in
  mkAnalyzer (char_stats self) (word_stats self)
             (mkCounts (Shakespeare.chars (counts self))
                       (Shakespeare.words (counts self))
                       (files (counts self) + 1)).

(** What one text adds at each granularity. *)
Definition char_units (text : str) : list str :=
  findall_az (_clean_text text).

Definition word_units (text : str) : list str :=
  findall_words (_clean_text text).

(** The main loop over the texts of the loader. *)
Definition feed (self : LinguisticAnalyzer) (texts : list str)
  : LinguisticAnalyzer :=
  fold_left process texts self.

Definition run (texts : list str) : LinguisticAnalyzer := feed init texts.

End Regex.

(** A word as the specification describes it: at least two characters,
    all of them letters or apostrophes, a letter first and a letter last. *)
Definition well_shaped (w : str) : bool :=
  (2 <=? length w)%nat && forallb in_class w
  && is_az (hd 0 w) && is_az (last w 0).

(** A text with no word character besides the letters [a-z]: no digit, no
    underscore, no letter from outside ASCII. *)
Definition plain (U : Unicode.table) (s : str) : Prop :=
  Forall (fun c => Unicode.is_word U c = true -> is_az c = true) s.

(** The same statistics: both tables the same, every count equal. *)
Definition same_stats (a b : LinguisticAnalyzer) : Prop :=
  Counter.same (char_stats a) (char_stats b) /\
  Counter.same (word_stats a) (word_stats b) /\
  counts a = counts b.

Section Entropy.
Import PyFloat.
Context {F : Type} {A : Arith F}.

(** [smoothing = 1e-10]. *)
Definition smoothing : F := literal 1 (-10).

Definition entropy_step (counter : Counter.t) (total_count : Z)
  (entropy : F) (count : Z) : result F :=
  c <- of_int count ;;
  n <- of_int (Counter.size counter) ;;
  t <- of_int total_count ;;
  prob <- div (add c smoothing) (add t (mul smoothing n)) ;;
  l <- log2 prob ;;
  Ok (sub entropy (mul prob l)).

Definition calculate_entropy (counter : Counter.t) (total_count : Z)
  : result F :=
  for_each (entropy_step counter total_count) (Counter.values counter) zero.

End Entropy.

(** The rank-frequency series of [create_plots]:
    [freq = sorted(c.values(), reverse=True)] against
    [np.arange(1, len(freq)+1)]. *)
Definition zipf (c : Counter.t) : list Z * list Z :=
  let freq := sorted_reverse (Counter.values c) in
  (arange 1 (len freq + 1), freq).

End Shakespeare.

(** ** The units the tables count *)

Module Units.
Import Py.

(** The characters [Chinese.py] counts: those of the class but the
    terminator. *)
Definition counted (c : char) : bool :=
  Chinese.kept c && negb (c =? Chinese.full_stop)%N.

(** A character from U+4E00 to U+9FA5. *)
Definition han (c : char) : Prop := (0x4e00 <= c <= 0x9fa5)%N.

(** The one-character strings of the [n] characters from [lo] on. *)
Definition alphabet (lo n : N) : list str :=
  map (fun i => [(lo + N.of_nat i)%N]) (seq 0 (N.to_nat n)).

(** An ASCII character, and a text of ASCII characters. *)
Definition ascii (c : char) : Prop := (c < 128)%N.

Definition ascii_text (s : str) : Prop := Forall ascii s.

(** An ASCII letter of either case. *)
Definition is_letter (c : char) : bool :=
  Unicode.between 65 90 c || Unicode.between 97 122 c.

(** A table grown from another: no count is smaller, no key is lost. *)
Definition grown (c c' : Counter.t) : Prop :=
  (forall k, (Counter.get c k <= Counter.get c' k)%Z) /\
  (forall k, In k (Counter.keys c) -> In k (Counter.keys c')).

(** A character that is neither of the class [[a-z']] nor a word
    character: white space, punctuation. *)
Definition inert (U : Unicode.table) (c : char) : bool :=
  negb (Shakespeare.in_class c) && negb (Unicode.is_word U c).

(** A piece of a text stands between inert characters: the text before it
    is empty or ends with one, the text after it is empty or begins with
    one. *)
Definition delimited (U : Unicode.table) (pre post : str) : bool :=
  match rev pre with [] => true | x :: _ => inert U x end
  && match post with [] => true | y :: _ => inert U y end.

(** The text made of gaps and words in turn, a gap first and last. *)
Fixpoint interleave (gaps words : list str) : str :=
  match gaps, words with
  | g :: gs, w :: ws => g ++ w ++ interleave gs ws
  | g :: _, [] => g
  | [], _ => []
  end.

End Units.

(** ** [math.log2] of the C library *)

Module Libm.
Import PrimFloat.

(** [math.log2] at the two arguments the rounding example consults, as
    the C library returns them: [log2(0.01)] and [log2(100.0)]. *)
Definition log2_at (x : float) : float :=
  if (x =? 0x1.47ae147ae147bp-7)%float
  then (- 0x1.a934f0979a371p+2)%float
  else if (x =? 0x1.9p+6)%float then 0x1.a934f0979a371p+2%float
  else nan.

End Libm.

(** ** [Counter.most_common] and the data of the charts *)

Module Charts.
Import Py.

(** [sorted(items, key=itemgetter(1), reverse=True)]: a stable sort of the
    items by count, largest first; items with equal counts keep the order
    of the table. *)
Fixpoint insert_item (x : str * Z) (l : list (str * Z)) : list (str * Z) :=
  match l with
  | [] => [x]
  | y :: r =>
      if (snd x <? snd y)%Z then y :: insert_item x r else x :: y :: r
  end.

Definition sorted_items (c : Counter.t) : list (str * Z) :=
  fold_right insert_item [] c.

(** [c.most_common(n)] for an integer [n]: [heapq.nlargest(n, c.items(),
    key=itemgetter(1))], which is the first [n] items of the sort above
    (none for [n <= 0]). *)
Definition most_common (n : Z) (c : Counter.t) : list (str * Z) :=
  firstn (Z.to_nat n) (sorted_items c).

(** Unpacking [zip] of the starred items into two names, on a list of
    pairs: the two columns, and [ValueError] when there is no pair. *)
Definition unzip (items : list (str * Z))
  : PyFloat.result (list str * list Z) :=
  match items with
  | [] => PyFloat.Raise PyFloat.ValueError
  | _ :: _ => PyFloat.Ok (map fst items, map snd items)
  end.

(** [range(n)]. *)
Definition range (n : nat) : list Z := map Z.of_nat (seq 0 n).

(** What [plot_combined] hands to one bar chart: the positions
    [range(50)], the heights [[v for _, v in items]] and the tick labels
    [[k for k, _ in items]]. *)
Record bar_chart : Type := mkBar {
  positions : list Z;
  heights : list Z;
  tick_label : list str
}.

Definition bar_of (items : list (str * Z)) : bar_chart :=
  mkBar (range 50) (map snd items) (map fst items).

Section CreatePlots.
Import PyFloat.
Context {F : Type} {A : Arith F}.

(** The data [create_plots] of [SHAKESPEARE.py] draws, in the order it
    computes them: the bars of the twenty most common letters and the
    entropy of the title, the horizontal bars of the twenty most common
    words, last first, and their entropy, and the two rank-frequency
    series. Rendering and the formatting of the titles are left to
    [matplotlib]. *)
Record plots : Type := mkPlots {
  ax1_bar : list str * list Z;
  ax1_entropy : F;
  ax2_barh : list str * list Z;
  ax2_entropy : F;
  ax3_loglog : list Z * list Z;
  ax4_loglog : list Z * list Z
}.

Definition create_plots (analyzer : Shakespeare.LinguisticAnalyzer)
  : result plots :=
  cc <- unzip (most_common 20 (Shakespeare.char_stats analyzer)) ;;
  e1 <- Shakespeare.calculate_entropy
          (Shakespeare.char_stats analyzer)
          (Shakespeare.chars (Shakespeare.counts analyzer)) ;;
  ww <- unzip (most_common 20 (Shakespeare.word_stats analyzer)) ;;
  e2 <- Shakespeare.calculate_entropy
          (Shakespeare.word_stats analyzer)
          (Shakespeare.words (Shakespeare.counts analyzer)) ;;
  Ok (mkPlots cc e1 (rev (fst ww), rev (snd ww)) e2
              (Shakespeare.zipf (Shakespeare.char_stats analyzer))
              (Shakespeare.zipf (Shakespeare.word_stats analyzer))).

End CreatePlots.

End Charts.

(** ** [ShakespeareLoader] and the main program of [SHAKESPEARE.py] *)

Module Loader.
Import Py.
Local Open Scope N_scope.

Definition newline : char := 10.

(** The number of newlines the text starts with: what [\n{2,}] would take,
    being greedy. *)
Fixpoint newline_run (s : str) : nat :=
  match s with
  | [] => 0
  | c :: r => if c =? newline then S (newline_run r) else 0
  end.

(** The scan of [re.sub(r'\n{2,}', '\n', text)]: where two newlines or
    more stand, one newline is written and the scan resumes after the
    whole run ([skip] counts the characters of the run still to pass);
    elsewhere the character is copied. *)
Fixpoint sub_newlines_from (skip : nat) (s : str) : str :=
  match s with
  | [] => []
  | c :: r =>
      match skip with
      | S k => sub_newlines_from k r
      | O =>
          if (2 <=? newline_run s)%nat
          then newline :: sub_newlines_from (newline_run s - 1) r
          else c :: sub_newlines_from 0 r
      end
  end.

Definition sub_newlines (text : str) : str := sub_newlines_from 0 text.

(** A text with two newlines in a row: with a blank line. *)
Fixpoint has_blank (s : str) : bool :=
  match s with
  | [] => false
  | c :: r =>
      ((c =? newline) && match r with
                         | d :: _ => d =? newline
                         | [] => false
                         end)
      || has_blank r
  end.

Section Stream.

(** [gutenberg.raw] of the [nltk] package: the text of a file of the
    corpus. *)
Variable raw : str -> str.

(** [ShakespeareLoader.stream_text], as the list of the texts it yields. *)
Definition stream_text (fileids : list str) : list str :=
  map (fun fileid => sub_newlines (raw fileid)) fileids.

End Stream.

End Loader.

(** ** The entropies [SHAKESPEARE.py] prints *)

Module Report.
Import PyFloat.

Section Entropies.
Context {F : Type} {A : Arith F}.

(** The character and word entropies the main program of
    [SHAKESPEARE.py] prints. *)
Definition shakespeare (a : Shakespeare.LinguisticAnalyzer)
  : result (F * F) :=
  ce <- Shakespeare.calculate_entropy (Shakespeare.char_stats a)
          (Shakespeare.chars (Shakespeare.counts a)) ;;
  we <- Shakespeare.calculate_entropy (Shakespeare.word_stats a)
          (Shakespeare.words (Shakespeare.counts a)) ;;
  Ok (ce, we).

End Entropies.

End Report.

Import Py.

(* ================================================================== *)
(** * Part II: properties *)
(* ================================================================== *)

(** ** The embedding at work *)

Example scenario_A :
  let p := Chinese.run Chinese.lcut_chars [u "中中文。中文。"] in
  Chinese.char_counter p = [(u "中", 3%Z); (u "文", 2%Z)] /\
  Chinese.total_chars p = 5%Z /\
  Chinese.sentence_counter p = [(u "中中文", 1%Z); (u "中文", 1%Z)] /\
  Chinese.total_sentences p = 2%Z.
Proof. vm_compute. repeat split. Qed.

Example findall_words_examples :
  let f s := Shakespeare.findall_words Unicode.ascii_only s in
  f (u "don't 'tis the") = [u "don't"; u "tis"; u "the"] /\
  f (u "1''1") = [u "''"] /\ f (u "_'s") = [u "'s"] /\
  f (u "1a'bc") = [u "'bc"] /\ f (u "ab''") = [u "ab"] /\
  f (u "a'' ") = [] /\ f (u "ab'1") = [u "ab'"] /\
  f (u "x 'tis' y") = [u "tis"] /\ f (u "a-b cd-ef") = [u "cd"; u "ef"] /\
  f (u "ab''cd") = [u "ab''cd"] /\ f (u "i am") = [u "am"] /\
  f (u "1ab") = [].
Proof. vm_compute. repeat split. Qed.

Section Binary64Example.
Import PrimFloat.

(** Scenario C on binary64 floats, whatever [math.log2] computes: the
    default [alpha] is the float nearest to [1e-5], and the entropy of the
    empty table is the float [0.0]. *)
Example scenario_C_binary64 (log2_libm : PrimFloat.float -> PrimFloat.float) :
  let A := PyFloat.binary64 log2_libm in
  @Chinese.default_alpha _ A = 0x1.4f8b588e368f1p-17%float /\
  @Shakespeare.smoothing _ A = 0x1.b7cdfd9d7bdbbp-34%float /\
  @Chinese.calculate_entropy _ A Counter.empty 0 (@Chinese.default_alpha _ A)
  = PyFloat.Ok 0%float.
Proof. repeat split. Qed.

(** The table [{"x": 0}] with total [0] on binary64 floats, given only that
    the logarithm of [1.0] is [0.0]: the smoothed probability is exactly
    [1.0] and the entropy is the float [0.0]. *)
Remark zero_total_entropy_binary64
  (log2_libm : PrimFloat.float -> PrimFloat.float) :
  log2_libm 1%float = 0%float ->
  let A := PyFloat.binary64 log2_libm in
  @Chinese.calculate_entropy _ A [(u "x", 0%Z)] 0 (@Chinese.default_alpha _ A)
  = PyFloat.Ok 0%float.
Proof.
  intro H. vm_compute. rewrite H. reflexivity.
Qed.

End Binary64Example.

Example clean_text_example :
  Shakespeare._clean_text Unicode.ascii_only (0x1c%N :: u "  A b ")
  = u "a b".
Proof. vm_compute. reflexivity. Qed.

(** ** Counters *)

Section CounterFacts.
Import Counter.

Lemma len_nil (A : Type) : len (@nil A) = 0%Z.
Proof. reflexivity. Qed.

Lemma len_cons (A : Type) (x : A) (xs : list A) :
  len (x :: xs) = (1 + len xs)%Z.
Proof. unfold len. simpl length. lia. Qed.

Lemma sum_cons (x : Z) (xs : list Z) : sum (x :: xs) = (x + sum xs)%Z.
Proof. reflexivity. Qed.

Lemma len_app (A : Type) (xs ys : list A) :
  len (xs ++ ys) = (len xs + len ys)%Z.
Proof. unfold len. rewrite length_app. lia. Qed.

Lemma sum_app (xs ys : list Z) : sum (xs ++ ys) = (sum xs + sum ys)%Z.
Proof. induction xs as [|x xs IH]; simpl; lia. Qed.

Lemma update_app (c : t) (xs ys : list str) :
  update c (xs ++ ys) = update (update c xs) ys.
Proof. apply fold_left_app. Qed.

Lemma update_cons (c : t) (x : str) (xs : list str) :
  update c (x :: xs) = update (incr c x) xs.
Proof. reflexivity. Qed.

(** One more occurrence adds one to the sum of the counts. *)
Lemma sum_values_incr (c : t) (k : str) :
  sum (values (incr c k)) = (sum (values c) + 1)%Z.
Proof.
  induction c as [|[k' v] c IH]; simpl.
  - reflexivity.
  - destruct (str_eq_dec k' k); simpl.
    + fold (values c). lia.
    + fold (values (incr c k)). fold (values c). lia.
Qed.

Lemma sum_values_update (c : t) (xs : list str) :
  sum (values (update c xs)) = (sum (values c) + len xs)%Z.
Proof.
  revert c. induction xs as [|x xs IH]; intro c.
  - simpl. rewrite len_nil. lia.
  - rewrite update_cons, IH, sum_values_incr.
    unfold len. simpl length. lia.
Qed.

(** The count of a key after one more occurrence of [k]. *)
Lemma get_incr (c : t) (k k' : str) :
  get (incr c k) k' =
  (get c k' + if str_eq_dec k k' then 1 else 0)%Z.
Proof.
  induction c as [|[k0 v] c IH]; simpl.
  - destruct (str_eq_dec k k'); reflexivity.
  - destruct (str_eq_dec k0 k) as [E|E]; simpl.
    + subst k0. destruct (str_eq_dec k k'); lia.
    + destruct (str_eq_dec k0 k') as [E'|E'].
      * subst k0. destruct (str_eq_dec k k'); [congruence | lia].
      * exact IH.
Qed.

(** After an update every key has its former count plus its number of
    occurrences in the update. *)
Lemma get_update (c : t) (xs : list str) (k : str) :
  get (update c xs) k = (get c k + Z.of_nat (count_occ str_eq_dec xs k))%Z.
Proof.
  revert c. induction xs as [|x xs IH]; intro c.
  - simpl. lia.
  - rewrite update_cons, IH, get_incr. simpl.
    destruct (str_eq_dec x k); lia.
Qed.

Lemma keys_incr (c : t) (k k' : str) :
  In k' (keys (incr c k)) <-> k' = k \/ In k' (keys c).
Proof.
  induction c as [|[k0 v] c IH]; simpl.
  - intuition congruence.
  - destruct (str_eq_dec k0 k) as [E|E]; simpl.
    + subst k0. intuition congruence.
    + fold (keys (incr c k)). fold (keys c). rewrite IH. tauto.
Qed.

Lemma keys_update (c : t) (xs : list str) (k : str) :
  In k (keys (update c xs)) <-> In k xs \/ In k (keys c).
Proof.
  revert c. induction xs as [|x xs IH]; intro c.
  - simpl. tauto.
  - rewrite update_cons, IH, keys_incr. simpl. intuition congruence.
Qed.

Lemma well_formed_empty : Counter.well_formed Counter.empty.
Proof. split; constructor. Qed.

Lemma well_formed_incr (c : t) (k : str) :
  well_formed c -> well_formed (incr c k).
Proof.
  intros [Hk Hv]. split.
  - induction c as [|[k0 v] c IH]; simpl.
    + constructor; [intros [] | constructor].
    + simpl in Hk. inversion Hk as [|? ? Hn Hk']; subst.
      inversion Hv as [|? ? Hv0 Hv']; subst.
      destruct (str_eq_dec k0 k) as [E|E]; simpl.
      * constructor; assumption.
      * constructor.
        -- fold (keys (incr c k)). rewrite keys_incr.
           intros [E'|H']; [congruence | exact (Hn H')].
        -- apply IH; assumption.
  - clear Hk. induction c as [|[k0 v] c IH]; simpl.
    + constructor; [lia | constructor].
    + inversion Hv as [|? ? Hv0 Hv']; subst.
      destruct (str_eq_dec k0 k); simpl; constructor;
        try lia; try assumption.
      apply IH; assumption.
Qed.

Lemma well_formed_update (c : t) (xs : list str) :
  well_formed c -> well_formed (update c xs).
Proof.
  revert c. induction xs as [|x xs IH]; intros c H.
  - exact H.
  - rewrite update_cons. apply IH, well_formed_incr, H.
Qed.

Lemma get_In (c : t) (k : str) (v : Z) :
  NoDup (keys c) -> In (k, v) c -> get c k = v.
Proof.
  induction c as [|[k0 v0] c IH]; simpl; intros Hk Hin.
  - contradiction.
  - inversion Hk as [|? ? Hn Hk']; subst.
    destruct Hin as [E|Hin].
    + inversion E; subst. destruct (str_eq_dec k k); congruence.
    + destruct (str_eq_dec k0 k) as [E|E].
      * subst k0. exfalso. apply Hn.
        change k with (fst (k, v)). apply in_map, Hin.
      * apply IH; assumption.
Qed.

Lemma In_get (c : t) (k : str) :
  get c k <> 0%Z -> In (k, get c k) c.
Proof.
  induction c as [|[k0 v0] c IH]; simpl; intro H.
  - congruence.
  - destruct (str_eq_dec k0 k) as [E|E].
    + subst k0. now left.
    + right. apply IH, H.
Qed.

(** Two well-formed counters with the same counts hold the same items, in
    some order. *)
Lemma eqv_Permutation (c1 c2 : t) :
  well_formed c1 -> well_formed c2 -> eqv c1 c2 -> Permutation c1 c2.
Proof.
  intros [K1 V1] [K2 V2] E.
  assert (half : forall a b : t,
             NoDup (keys a) -> Forall (fun v => (1 <= v)%Z) (values a) ->
             eqv a b -> forall x, In x a -> In x b).
  { intros a b Ka Va Eab [k v] Hin.
    assert (Hv : (1 <= v)%Z).
    { rewrite Forall_forall in Va. apply Va.
      change v with (snd (k, v)). apply in_map, Hin. }
    pose proof (get_In _ _ _ Ka Hin) as G.
    rewrite (Eab k) in G. rewrite <- G. apply In_get. lia. }
  apply NoDup_Permutation.
  - eapply NoDup_map_inv. exact K1.
  - eapply NoDup_map_inv. exact K2.
  - intro x. split.
    + apply half; assumption.
    + apply half; try assumption. intro k. symmetry. apply E.
Qed.

End CounterFacts.

(** ** The two accumulators in closed form *)

Section Accumulators.
Variable lcut : str -> list str.
Variable U : Unicode.table.

Lemma chinese_process_text_eq (self : Chinese.ProcessingPipeline) (text : str) :
  Chinese.process_text lcut self text =
  Chinese.mkPipeline
    (Counter.update (Chinese.char_counter self) (Chinese.char_units text))
    (Counter.update (Chinese.word_counter self) (Chinese.word_units lcut text))
    (Counter.update (Chinese.sentence_counter self)
                    (Chinese.sentence_units text))
    (Chinese.total_chars self + len (Chinese.char_units text))
    (Chinese.total_words self + len (Chinese.word_units lcut text))
    (Chinese.total_sentences self + len (Chinese.sentence_units text)).
Proof. reflexivity. Qed.

(** A run of the pipeline updates each table with the units of all blocks,
    in order, and adds their number to the matching total. *)
Lemma chinese_feed_eq (blocks : list str) (self : Chinese.ProcessingPipeline) :
  Chinese.feed lcut self blocks =
  Chinese.mkPipeline
    (Counter.update (Chinese.char_counter self)
                    (flat_map Chinese.char_units blocks))
    (Counter.update (Chinese.word_counter self)
                    (flat_map (Chinese.word_units lcut) blocks))
    (Counter.update (Chinese.sentence_counter self)
                    (flat_map Chinese.sentence_units blocks))
    (Chinese.total_chars self + len (flat_map Chinese.char_units blocks))
    (Chinese.total_words self
     + len (flat_map (Chinese.word_units lcut) blocks))
    (Chinese.total_sentences self
     + len (flat_map Chinese.sentence_units blocks)).
Proof.
  revert self. induction blocks as [|b blocks IH]; intro self.
  - destruct self. simpl. rewrite !len_nil. f_equal; lia.
  - unfold Chinese.feed in *. simpl fold_left.
    rewrite IH, chinese_process_text_eq. simpl.
    rewrite !update_app, !len_app. f_equal; lia.
Qed.

Lemma shakespeare_process_eq (self : Shakespeare.LinguisticAnalyzer)
  (text : str) :
  Shakespeare.process U self text =
  Shakespeare.mkAnalyzer
    (Counter.update (Shakespeare.char_stats self)
                    (Shakespeare.char_units U text))
    (Counter.update (Shakespeare.word_stats self)
                    (Shakespeare.word_units U text))
    (Shakespeare.mkCounts
       (Shakespeare.chars (Shakespeare.counts self)
        + len (Shakespeare.char_units U text))
       (Shakespeare.words (Shakespeare.counts self)
        + len (Shakespeare.word_units U text))
       (Shakespeare.files (Shakespeare.counts self) + 1)).
Proof. reflexivity. Qed.

Lemma shakespeare_feed_eq (texts : list str)
  (self : Shakespeare.LinguisticAnalyzer) :
  Shakespeare.feed U self texts =
  Shakespeare.mkAnalyzer
    (Counter.update (Shakespeare.char_stats self)
                    (flat_map (Shakespeare.char_units U) texts))
    (Counter.update (Shakespeare.word_stats self)
                    (flat_map (Shakespeare.word_units U) texts))
    (Shakespeare.mkCounts
       (Shakespeare.chars (Shakespeare.counts self)
        + len (flat_map (Shakespeare.char_units U) texts))
       (Shakespeare.words (Shakespeare.counts self)
        + len (flat_map (Shakespeare.word_units U) texts))
       (Shakespeare.files (Shakespeare.counts self) + len texts)).
Proof.
  revert self. induction texts as [|b texts IH]; intro self.
  - destruct self as [cs ws [c w f]]. simpl. rewrite !len_nil.
    do 2 f_equal; lia.
  - unfold Shakespeare.feed in *. simpl fold_left.
    rewrite IH, shakespeare_process_eq. simpl.
    rewrite !update_app, !len_app.
    replace (len (b :: texts)) with (1 + len texts)%Z
      by (unfold len; simpl length; lia).
    do 2 f_equal; lia.
Qed.

(** C1. After any sequence of accumulated blocks, each running total equals
    the sum of the counts of its table: characters, words and sentences in
    [ProcessingPipeline], characters and words in [LinguisticAnalyzer]
    (which keeps no sentence table). Every intermediate state is the state
    after a shorter sequence, so this covers each step of a run. *)
Theorem C1_totals_are_table_sums (blocks : list str) :
  let p := Chinese.run lcut blocks in
  let a := Shakespeare.run U blocks in
  (Chinese.total_chars p = sum (Counter.values (Chinese.char_counter p)) /\
   Chinese.total_words p = sum (Counter.values (Chinese.word_counter p)) /\
   Chinese.total_sentences p
   = sum (Counter.values (Chinese.sentence_counter p))) /\
  (Shakespeare.chars (Shakespeare.counts a)
   = sum (Counter.values (Shakespeare.char_stats a)) /\
   Shakespeare.words (Shakespeare.counts a)
   = sum (Counter.values (Shakespeare.word_stats a))).
Proof.
  unfold Chinese.run, Shakespeare.run.
  rewrite chinese_feed_eq, shakespeare_feed_eq. simpl.
  rewrite !sum_values_update. simpl. repeat split; reflexivity.
Qed.

(** C9. Accumulating the empty block changes no table and no running
    total, and nothing is raised (the functions are total): the pipeline
    state is the same record, given that the segmenter finds no word in
    the empty string; in the analyzer only the number of files grows. *)
Theorem C9_empty_block_changes_nothing
  (p : Chinese.ProcessingPipeline) (a : Shakespeare.LinguisticAnalyzer) :
  lcut [] = [] ->
  Chinese.process_text lcut p [] = p /\
  Shakespeare.process U a [] =
  Shakespeare.mkAnalyzer
    (Shakespeare.char_stats a) (Shakespeare.word_stats a)
    (Shakespeare.mkCounts
       (Shakespeare.chars (Shakespeare.counts a))
       (Shakespeare.words (Shakespeare.counts a))
       (Shakespeare.files (Shakespeare.counts a) + 1)).
Proof.
  intro Hcut. split.
  - rewrite chinese_process_text_eq.
    unfold Chinese.word_units, Chinese.char_units, Chinese.sentence_units.
    simpl. rewrite Hcut. simpl. rewrite !len_nil.
    destruct p. simpl. f_equal; lia.
  - rewrite shakespeare_process_eq.
    unfold Shakespeare.char_units, Shakespeare.word_units. simpl.
    rewrite !len_nil. do 2 f_equal; lia.
Qed.

(** Updating a well-formed counter with the same units in another order
    gives the same table. *)
Lemma update_Permutation (c : Counter.t) (xs ys : list str) :
  Counter.well_formed c -> Permutation xs ys ->
  Counter.same (Counter.update c xs) (Counter.update c ys).
Proof.
  intros Hc Hp.
  assert (E : Counter.eqv (Counter.update c xs) (Counter.update c ys)).
  { intro k. rewrite !get_update.
    now rewrite (proj1 (Permutation_count_occ str_eq_dec xs ys) Hp k). }
  split; [exact E|].
  apply eqv_Permutation; try apply well_formed_update; assumption.
Qed.

Lemma flat_map_Permutation (A B : Type) (f : A -> list B) (l l' : list A) :
  Permutation l l' -> Permutation (flat_map f l) (flat_map f l').
Proof.
  induction 1 as [|x l l' _ IH|x y l|l l' l'' _ IH1 _ IH2]; simpl.
  - constructor.
  - now apply Permutation_app_head.
  - rewrite !app_assoc. apply Permutation_app_tail, Permutation_app_comm.
  - now transitivity (flat_map f l').
Qed.

(** C4. The final tables and totals do not depend on how the blocks are
    batched nor on their order: feeding [l1] and then [l2] is feeding
    [l1 ++ l2], and feeding any permutation [l] of these blocks gives the
    same tables (equal as dictionaries, the same items) and the same
    totals, in both programs. *)
Theorem C4_order_and_batching_independent (l1 l2 l : list str) :
  Permutation (l1 ++ l2) l ->
  (Chinese.feed lcut (Chinese.run lcut l1) l2 = Chinese.run lcut (l1 ++ l2) /\
   Chinese.same_stats (Chinese.run lcut (l1 ++ l2)) (Chinese.run lcut l)) /\
  (Shakespeare.feed U (Shakespeare.run U l1) l2
   = Shakespeare.run U (l1 ++ l2) /\
   Shakespeare.same_stats (Shakespeare.run U (l1 ++ l2))
                          (Shakespeare.run U l)).
Proof.
  intro Hp.
  assert (Hlen : forall (f : str -> list str),
             len (flat_map f (l1 ++ l2)) = len (flat_map f l)).
  { intro f. unfold len. f_equal.
    apply Permutation_length, flat_map_Permutation, Hp. }
  assert (Hsame : forall (f : str -> list str),
             Counter.same
               (Counter.update Counter.empty (flat_map f (l1 ++ l2)))
               (Counter.update Counter.empty (flat_map f l))).
  { intro f. apply update_Permutation.
    - apply well_formed_empty.
    - apply flat_map_Permutation, Hp. }
  split; split.
  - unfold Chinese.run, Chinese.feed. symmetry. apply fold_left_app.
  - unfold Chinese.run. rewrite !chinese_feed_eq.
    unfold Chinese.same_stats. simpl.
    rewrite !Hlen. repeat split; try apply Hsame.
  - unfold Shakespeare.run, Shakespeare.feed. symmetry. apply fold_left_app.
  - unfold Shakespeare.run. rewrite !shakespeare_feed_eq.
    unfold Shakespeare.same_stats. simpl.
    rewrite !Hlen. repeat split; try apply Hsame.
    f_equal. unfold len. f_equal. apply Permutation_length, Hp.
Qed.

End Accumulators.

(** ** Sentence splitting in [Chinese.py] *)

Section Splitting.

Lemma split_not_nil (sep : char) (s : str) : split sep s <> [].
Proof.
  destruct s as [|c r]; simpl; [discriminate|].
  destruct (c =? sep)%N; [discriminate|].
  destruct (split sep r); discriminate.
Qed.

(** A separator inside the text separates the fragments of what stands
    before it from the fragments of what stands after it. *)
Lemma split_app (sep : char) (a b : str) :
  split sep (a ++ sep :: b) = split sep a ++ split sep b.
Proof.
  induction a as [|c a IH]; simpl.
  - now rewrite N.eqb_refl.
  - destruct (c =? sep)%N.
    + now rewrite IH.
    + rewrite IH. pose proof (split_not_nil sep a) as Hne.
      destruct (split sep a); [congruence | reflexivity].
Qed.

(** The fragments hold every character but the separators. *)
Lemma split_lengths (sep : char) (s : str) :
  sum (map (@len char) (split sep s)) = len (remove_char sep s).
Proof.
  induction s as [|c r IH]; simpl.
  - reflexivity.
  - destruct (c =? sep)%N eqn:E; simpl.
    + rewrite IH. reflexivity.
    + pose proof (split_not_nil sep r) as Hne.
      destruct (split sep r) as [|f fs]; [congruence|].
      unfold sum, len in *. cbn [map fold_right length] in *. lia.
Qed.

Lemma truthy_lengths (fs : list str) :
  sum (map (@len char) (filter truthy fs)) = sum (map (@len char) fs).
Proof.
  induction fs as [|f fs IH]; simpl.
  - reflexivity.
  - destruct f; simpl; rewrite IH; reflexivity.
Qed.

Lemma clean_app (a b : str) :
  Chinese.clean (a ++ b) = Chinese.clean a ++ Chinese.clean b.
Proof. apply filter_app. Qed.

Lemma clean_full_stop (b : str) :
  Chinese.clean (Chinese.full_stop :: b)
  = Chinese.full_stop :: Chinese.clean b.
Proof. reflexivity. Qed.

(** The sentences of a block are those before a terminator followed by
    those after it. *)
Lemma sentence_units_app (a b : str) :
  Chinese.sentence_units (a ++ Chinese.full_stop :: b)
  = Chinese.sentence_units a ++ Chinese.sentence_units b.
Proof.
  unfold Chinese.sentence_units, Chinese.sentences_of.
  rewrite clean_app, clean_full_stop, split_app. apply filter_app.
Qed.

Lemma sentence_units_nil : Chinese.sentence_units [] = [].
Proof. reflexivity. Qed.

Lemma char_units_app (a b : str) :
  Chinese.char_units (a ++ Chinese.full_stop :: b)
  = Chinese.char_units a ++ Chinese.char_units b.
Proof.
  unfold Chinese.char_units, chars_of, remove_char.
  rewrite clean_app, clean_full_stop, filter_app. simpl.
  apply map_app.
Qed.

(** The text handed to the segmenter ignores the terminators. *)
Lemma stripped_app (a b : str) :
  remove_char Chinese.full_stop (Chinese.clean (a ++ Chinese.full_stop :: b))
  = remove_char Chinese.full_stop (Chinese.clean (a ++ b)).
Proof.
  unfold remove_char.
  rewrite !clean_app, clean_full_stop, !filter_app. reflexivity.
Qed.

(** A block and the same block with one terminator less are accumulated
    alike, as soon as they have the same sentences. *)
Lemma process_text_drop_full_stop (lcut : str -> list str)
  (p : Chinese.ProcessingPipeline) (a b : str) :
  Chinese.sentence_units (a ++ Chinese.full_stop :: b)
  = Chinese.sentence_units (a ++ b) ->
  Chinese.process_text lcut p (a ++ Chinese.full_stop :: b)
  = Chinese.process_text lcut p (a ++ b).
Proof.
  intro Hs. rewrite !chinese_process_text_eq, Hs.
  unfold Chinese.word_units, Chinese.char_units.
  rewrite stripped_app. reflexivity.
Qed.

(** Every sentence counted is a non-empty string. *)
Lemma sentence_units_truthy (text s : str) :
  In s (Chinese.sentence_units text) -> s <> [].
Proof.
  unfold Chinese.sentence_units, Chinese.sentences_of.
  rewrite filter_In. intros [_ H] ->. discriminate.
Qed.

(** A text without the separator is its own single fragment. *)
Lemma split_no_sep (sep : char) (s : str) :
  ~ In sep s -> split sep s = [s].
Proof.
  induction s as [|c r IH]; intro H; [reflexivity|].
  cbn [split]. destruct (N.eqb_spec c sep) as [->|Hc].
  - exfalso. apply H. now left.
  - rewrite IH; [reflexivity|]. intro X. apply H. now right.
Qed.

(** A block without a terminator holds one sentence, its cleaned text, or
    none when nothing is left of it. *)
Lemma sentence_units_no_stop (text : str) :
  ~ In Chinese.full_stop text ->
  Chinese.sentence_units text
  = match Chinese.clean text with
    | [] => []
    | _ :: _ => [Chinese.clean text]
    end.
Proof.
  intro H. unfold Chinese.sentence_units, Chinese.sentences_of.
  rewrite split_no_sep.
  - destruct (Chinese.clean text); reflexivity.
  - unfold Chinese.clean. intro X. apply filter_In in X. now apply H.
Qed.

(** C7. The sentences of a block are the non-empty fragments between
    terminators of its cleaned text: a block without a terminator gives
    its cleaned text as its one sentence (none when the cleaned text is
    empty), a terminator splits the sentences before it from those after
    it, and these sentences are what [process_text] adds to the sentence
    table and counts in [total_sentences]. The sentence table of a run
    never has the empty string as a key; and a leading terminator, a
    trailing one, or one next to another leaves the whole accumulation
    (tables and totals, so [total_sentences] too) as it is without it. *)
Theorem C7_no_empty_sentence (lcut : str -> list str) (blocks : list str)
  (p : Chinese.ProcessingPipeline) (a b : str) :
  ~ In [] (Counter.keys (Chinese.sentence_counter (Chinese.run lcut blocks)))
  /\ Chinese.sentence_units (a ++ Chinese.full_stop :: b)
     = Chinese.sentence_units a ++ Chinese.sentence_units b
  /\ Chinese.process_text lcut p (Chinese.full_stop :: a)
     = Chinese.process_text lcut p a
  /\ Chinese.process_text lcut p (a ++ [Chinese.full_stop])
     = Chinese.process_text lcut p a
  /\ Chinese.process_text lcut p
       (a ++ Chinese.full_stop :: Chinese.full_stop :: b)
     = Chinese.process_text lcut p (a ++ Chinese.full_stop :: b)
  /\ (~ In Chinese.full_stop a ->
      Chinese.sentence_units a
      = match Chinese.clean a with
        | [] => []
        | _ :: _ => [Chinese.clean a]
        end)
  /\ Chinese.sentence_counter (Chinese.process_text lcut p a)
     = Counter.update (Chinese.sentence_counter p) (Chinese.sentence_units a)
  /\ Chinese.total_sentences (Chinese.process_text lcut p a)
     = (Chinese.total_sentences p + len (Chinese.sentence_units a))%Z.
Proof.
  split; [|split; [|split; [|split; [|split; [|split; [|split]]]]]].
  - unfold Chinese.run. rewrite chinese_feed_eq. simpl.
    rewrite keys_update. simpl. intros [H|[]].
    apply in_flat_map in H. destruct H as [text [_ H]].
    exact (sentence_units_truthy _ _ H eq_refl).
  - apply sentence_units_app.
  - apply (process_text_drop_full_stop lcut p [] a).
    apply (sentence_units_app [] a).
  - transitivity (Chinese.process_text lcut p (a ++ [])).
    + apply (process_text_drop_full_stop lcut p a []).
      now rewrite sentence_units_app, sentence_units_nil, !app_nil_r.
    + now rewrite app_nil_r.
  - apply (process_text_drop_full_stop lcut p a (Chinese.full_stop :: b)).
    rewrite !sentence_units_app. f_equal.
  - apply sentence_units_no_stop.
  - now rewrite chinese_process_text_eq.
  - now rewrite chinese_process_text_eq.
Qed.

(** One more occurrence of [k] adds its length to the weight. *)
Lemma weight_incr (c : Counter.t) (k : str) :
  Counter.weight (Counter.incr c k) = (Counter.weight c + len k)%Z.
Proof.
  unfold Counter.weight.
  induction c as [|[k0 v] c IH]; simpl.
  - lia.
  - destruct (str_eq_dec k0 k) as [E|E]; simpl.
    + subst k0. lia.
    + rewrite IH. lia.
Qed.

Lemma weight_update (c : Counter.t) (xs : list str) :
  Counter.weight (Counter.update c xs)
  = (Counter.weight c + sum (map (@len char) xs))%Z.
Proof.
  revert c. induction xs as [|x xs IH]; intro c.
  - simpl. lia.
  - rewrite update_cons, IH, weight_incr. simpl. lia.
Qed.

(** The sentences of a block hold exactly the characters counted in it. *)
Lemma sentence_units_lengths (text : str) :
  sum (map (@len char) (Chinese.sentence_units text))
  = len (Chinese.char_units text).
Proof.
  unfold Chinese.sentence_units, Chinese.sentences_of, Chinese.char_units.
  rewrite truthy_lengths, split_lengths.
  unfold chars_of, len. now rewrite length_map.
Qed.

Lemma sentence_units_lengths_all (blocks : list str) :
  sum (map (@len char) (flat_map Chinese.sentence_units blocks))
  = len (flat_map Chinese.char_units blocks).
Proof.
  induction blocks as [|b blocks IH]; cbn [flat_map].
  - reflexivity.
  - rewrite map_app, sum_app, len_app, sentence_units_lengths, IH.
    reflexivity.
Qed.

(** C10. After any run of the Chinese pipeline, [total_chars] is the sum
    over the items [(s, c)] of the sentence table of [len(s) * c]: the
    sentences partition the characters that were counted. *)
Theorem C10_total_chars_is_sentence_weight (lcut : str -> list str)
  (blocks : list str) :
  Chinese.total_chars (Chinese.run lcut blocks)
  = Counter.weight (Chinese.sentence_counter (Chinese.run lcut blocks)).
Proof.
  unfold Chinese.run. rewrite chinese_feed_eq. simpl.
  rewrite weight_update, sentence_units_lengths_all. reflexivity.
Qed.

End Splitting.

(** ** The rank-frequency series *)

Section RankFrequency.

Lemma insert_desc_Permutation (x : Z) (l : list Z) :
  Permutation (insert_desc x l) (x :: l).
Proof.
  induction l as [|y l IH]; simpl.
  - apply Permutation_refl.
  - destruct (x <? y)%Z.
    + rewrite IH. apply perm_swap.
    + apply Permutation_refl.
Qed.

Lemma sorted_reverse_Permutation (xs : list Z) :
  Permutation (sorted_reverse xs) xs.
Proof.
  induction xs as [|x xs IH]; simpl.
  - constructor.
  - rewrite insert_desc_Permutation. now constructor.
Qed.

Lemma insert_desc_non_increasing (x : Z) (l : list Z) :
  non_increasing l -> non_increasing (insert_desc x l).
Proof.
  unfold non_increasing.
  induction l as [|y l IH]; simpl; intro H.
  - repeat constructor.
  - inversion H as [|? ? Hl Hy]; subst.
    destruct (x <? y)%Z eqn:E.
    + apply Z.ltb_lt in E. constructor.
      * apply IH, Hl.
      * apply (Permutation_Forall
                 (Permutation_sym (insert_desc_Permutation x l))).
        constructor; [lia | exact Hy].
    + apply Z.ltb_ge in E. constructor.
      * exact H.
      * constructor; [exact E|].
        eapply Forall_impl; [|exact Hy]. simpl. intros; lia.
Qed.

Lemma sorted_reverse_non_increasing (xs : list Z) :
  non_increasing (sorted_reverse xs).
Proof.
  induction xs as [|x xs IH]; simpl.
  - constructor.
  - apply insert_desc_non_increasing, IH.
Qed.

Lemma sum_Permutation (xs ys : list Z) :
  Permutation xs ys -> sum xs = sum ys.
Proof.
  induction 1; simpl; lia.
Qed.

Lemma arange_ranks (n : nat) : arange 1 (Z.of_nat n + 1) = ranks n.
Proof.
  unfold arange, ranks.
  replace (Z.to_nat (Z.of_nat n + 1 - 1)) with n by lia.
  rewrite <- seq_shift, map_map. apply map_ext. intro i. lia.
Qed.

(** What the rank-frequency builder returns for any table. *)
Lemma zipf_spec (c : Counter.t) :
  non_increasing (snd (Chinese.zipf c)) /\
  len (snd (Chinese.zipf c)) = Counter.size c /\
  sum (snd (Chinese.zipf c)) = sum (Counter.values c) /\
  fst (Chinese.zipf c) = ranks (length c) /\
  Shakespeare.zipf c = Chinese.zipf c.
Proof.
  assert (L : length (sorted_reverse (Counter.values c)) = length c).
  { rewrite (Permutation_length
               (sorted_reverse_Permutation (Counter.values c))).
    apply length_map. }
  unfold Chinese.zipf, Shakespeare.zipf, Counter.size. simpl.
  repeat split.
  - apply sorted_reverse_non_increasing.
  - unfold len. now rewrite L.
  - apply sum_Permutation, sorted_reverse_Permutation.
  - apply arange_ranks.
  - unfold len. now rewrite L.
Qed.

(** The tables of both programs are well formed: the length of a table
    is its number of distinct units. *)
Lemma pipeline_tables_well_formed (lcut : str -> list str)
  (U : Unicode.table) (blocks : list str) :
  let p := Chinese.run lcut blocks in
  let a := Shakespeare.run U blocks in
  Counter.well_formed (Chinese.char_counter p) /\
  Counter.well_formed (Chinese.word_counter p) /\
  Counter.well_formed (Chinese.sentence_counter p) /\
  Counter.well_formed (Shakespeare.char_stats a) /\
  Counter.well_formed (Shakespeare.word_stats a).
Proof.
  unfold Chinese.run, Shakespeare.run.
  rewrite chinese_feed_eq, shakespeare_feed_eq. simpl.
  repeat match goal with |- _ /\ _ => split end;
    apply well_formed_update, well_formed_empty.
Qed.

(** C5. For every frequency table the builder returns the ranks [1..N],
    [N] the number of entries of the table, against a frequency sequence
    that is non-increasing, has [N] elements, and sums to the sum of the
    counts of the table; both programs build the same series. For the
    character and word tables of a run that sum is the running total. *)
Theorem C5_rank_frequency_series (c : Counter.t)
  (lcut : str -> list str) (U : Unicode.table) (blocks : list str) :
  (non_increasing (snd (Chinese.zipf c)) /\
   len (snd (Chinese.zipf c)) = Counter.size c /\
   sum (snd (Chinese.zipf c)) = sum (Counter.values c) /\
   fst (Chinese.zipf c) = ranks (length c) /\
   Shakespeare.zipf c = Chinese.zipf c) /\
  (let p := Chinese.run lcut blocks in
   sum (snd (Chinese.char_zipf p)) = Chinese.total_chars p /\
   sum (snd (Chinese.word_zipf p)) = Chinese.total_words p) /\
  (let a := Shakespeare.run U blocks in
   sum (snd (Shakespeare.zipf (Shakespeare.char_stats a)))
   = Shakespeare.chars (Shakespeare.counts a) /\
   sum (snd (Shakespeare.zipf (Shakespeare.word_stats a)))
   = Shakespeare.words (Shakespeare.counts a)).
Proof.
  assert (S : forall t, sum (sorted_reverse (Counter.values t))
                        = sum (Counter.values t)).
  { intro t. apply sum_Permutation, sorted_reverse_Permutation. }
  split; [apply zipf_spec|].
  unfold Chinese.char_zipf, Chinese.word_zipf, Chinese.zipf,
    Shakespeare.zipf, Chinese.run, Shakespeare.run.
  rewrite chinese_feed_eq, shakespeare_feed_eq. simpl.
  rewrite !S, !sum_values_update. simpl. repeat split; reflexivity.
Qed.

End RankFrequency.

(** ** Entropy *)

Section EntropyFacts.
Import PyFloat.
Local Open Scope R_scope.

(** C3. On the empty table the entropy function returns [0.0] and raises
    nothing, whatever the total and the smoothing parameter, and whatever
    the float arithmetic: the loop body never runs. In particular
    [calculate_entropy({}, 0, 1e-5)] is [0.0]. *)
Theorem C3_entropy_of_empty_table (F : Type) (A : Arith F)
  (total : Z) (alpha : F) :
  Chinese.calculate_entropy Counter.empty total alpha = Ok zero /\
  Chinese.calculate_entropy Counter.empty 0 Chinese.default_alpha = Ok zero /\
  Shakespeare.calculate_entropy Counter.empty total = Ok zero.
Proof. repeat split. Qed.

Lemma Rlog2_1 : Rlog2 1 = 0.
Proof. unfold Rlog2. rewrite ln_1. lra. Qed.

Lemma ln_2_pos : 0 < ln 2.
Proof. pose proof ln_lt_2. lra. Qed.

Lemma Rlog2_div (x y : R) :
  0 < x -> 0 < y -> Rlog2 (x / y) = Rlog2 x - Rlog2 y.
Proof.
  intros Hx Hy. unfold Rlog2.
  change (x / y) with (x * / y).
  rewrite ln_mult, ln_Rinv; try assumption.
  - pose proof ln_2_pos. field. lra.
  - now apply Rinv_0_lt_compat.
Qed.

Lemma Rlog2_nonneg (x : R) : 1 <= x -> 0 <= Rlog2 x.
Proof.
  intro H. unfold Rlog2. pose proof ln_2_pos as L.
  apply Rmult_le_pos; [|left; now apply Rinv_0_lt_compat].
  destruct H as [H|H].
  - left. rewrite <- ln_1. apply ln_increasing; lra.
  - rewrite <- H, ln_1. lra.
Qed.

Lemma Rlog2_neg (x : R) : 0 < x -> x < 1 -> Rlog2 x < 0.
Proof.
  intros H0 H1. unfold Rlog2. pose proof ln_2_pos as L.
  assert (ln x < 0) by (rewrite <- ln_1; now apply ln_increasing).
  apply Ropp_lt_cancel. rewrite Ropp_0, <- Rdiv_opp_l.
  apply Rdiv_lt_0_compat; lra.
Qed.

(** The loop of [calculate_entropy] over the counts [vs], in exact
    arithmetic: when the divisor is not zero and every probability is
    positive, nothing is raised and each count contributes
    [-p * log2(p)]. *)
Lemma entropy_loop (table : Counter.t) (total : Z) (alpha : R)
  (vs : list Z) (acc : R) :
  IZR total + alpha * IZR (Counter.size table) <> 0 ->
  Forall (fun c => 0 < EntropySpec.smoothed_probability
                        c total alpha (Counter.size table)) vs ->
  for_each (Chinese.entropy_step table total alpha) vs acc
  = Ok (acc + EntropySpec.Rsum
                (map (fun c =>
                        let p := EntropySpec.smoothed_probability
                                   c total alpha (Counter.size table) in
                        - (p * Rlog2 p)) vs)).
Proof.
  intros Hd Hp. revert acc.
  induction Hp as [|c vs Hc _ IH]; intro acc; simpl.
  - f_equal. lra.
  - unfold Chinese.entropy_step at 1. simpl.
    unfold Rdiv_py. destruct (Req_dec_T _ 0) as [E|_]; [contradiction|].
    simpl. unfold Rlog2_py.
    unfold EntropySpec.smoothed_probability in Hc.
    destruct (Rle_dec _ 0) as [E|_]; [lra|].
    simpl. rewrite IH. f_equal.
    unfold EntropySpec.smoothed_probability. lra.
Qed.

(** [SHAKESPEARE.py] runs the same loop with its own constant. *)
Lemma shakespeare_entropy_eq (F : Type) (A : Arith F)
  (table : Counter.t) (total : Z) :
  Shakespeare.calculate_entropy table total
  = Chinese.calculate_entropy table total Shakespeare.smoothing.
Proof. reflexivity. Qed.

Lemma literal_pos (m e : Z) : (0 < m)%Z -> 0 < literal m e.
Proof.
  intro H. simpl. apply Rmult_lt_0_compat.
  - now apply IZR_lt.
  - apply powerRZ_lt. lra.
Qed.

Lemma size_pos (kv : str * Z) (table : Counter.t) :
  1 <= IZR (Counter.size (kv :: table)).
Proof.
  apply IZR_le. unfold Counter.size, len. simpl length. lia.
Qed.

(** In exact arithmetic, with a positive smoothing parameter and
    non-negative counts and total, the entropy function returns the
    smoothed sum of the specification. *)
Lemma entropy_is_smoothed_sum (table : Counter.t) (total : Z) (alpha : R) :
  0 < alpha -> (0 <= total)%Z ->
  Forall (fun c => (0 <= c)%Z) (Counter.values table) ->
  Chinese.calculate_entropy table total alpha
  = Ok (EntropySpec.entropy table total alpha).
Proof.
  intros Ha Ht Hc. destruct table as [|kv table]; [reflexivity|].
  pose proof (size_pos kv table) as Hn.
  apply IZR_le in Ht.
  assert (Hd : 0 < IZR total + alpha * IZR (Counter.size (kv :: table))).
  { assert (0 < alpha * IZR (Counter.size (kv :: table)))
      by (apply Rmult_lt_0_compat; lra).
    lra. }
  unfold Chinese.calculate_entropy. rewrite entropy_loop.
  - f_equal. unfold EntropySpec.entropy. simpl zero. lra.
  - lra.
  - eapply Forall_impl; [|exact Hc]. intros c H0. simpl in H0.
    apply IZR_le in H0.
    unfold EntropySpec.smoothed_probability.
    apply Rdiv_lt_0_compat; lra.
Qed.

(** *** The loop and the sum, in any arithmetic *)

Section Accumulation.
Context {F : Type} {A : Arith F}.
Variable table : Counter.t.
Variable total : Z.
Variable alpha : F.

Local Abbreviation term c :=
  (EntropySpec.term_in c total alpha (Counter.size table)).
Local Abbreviation defined c := (exists x : F, term c = Ok x).
Local Abbreviation accumulate :=
  (fun (acc : result F) (c : Z) => h <- acc ;; x <- term c ;; Ok (sub h x)).

(** One iteration of the loop subtracts the term of its unit. *)
Lemma entropy_step_term (acc : F) (c : Z) :
  Chinese.entropy_step table total alpha acc c
  = (x <- term c ;; Ok (sub acc x)).
Proof.
  unfold Chinese.entropy_step, EntropySpec.term_in,
    EntropySpec.probability_in.
  destruct (of_int c); [|reflexivity]. cbn [bind].
  destruct (of_int (Counter.size table)); [|reflexivity]. cbn [bind].
  destruct (of_int total); [|reflexivity]. cbn [bind].
  destruct (div _ _); [|reflexivity]. cbn [bind].
  destruct (log2 _); reflexivity.
Qed.

Lemma accumulate_raise (vs : list Z) (e : exn) :
  fold_left accumulate vs (Raise e) = Raise e.
Proof. induction vs as [|c vs IH]; [reflexivity | exact IH]. Qed.

Lemma for_each_accumulate (vs : list Z) (acc : F) :
  for_each (Chinese.entropy_step table total alpha) vs acc
  = fold_left accumulate vs (Ok acc).
Proof.
  revert acc. induction vs as [|c vs IH]; intro acc; [reflexivity|].
  cbn [for_each fold_left]. rewrite entropy_step_term. cbn [bind].
  destruct (term c) as [x|e]; cbn [bind].
  - apply IH.
  - symmetry. apply accumulate_raise.
Qed.

(** The loop returns when the term of every unit is defined, and only
    then. *)
Lemma for_each_returns (vs : list Z) (acc : F) :
  (exists h, for_each (Chinese.entropy_step table total alpha) vs acc = Ok h)
  <-> Forall (fun c => defined c) vs.
Proof.
  revert acc. induction vs as [|c vs IH]; intro acc.
  - split; [constructor | intros _; now exists acc].
  - cbn [for_each]. rewrite entropy_step_term.
    destruct (term c) as [x|e] eqn:E; cbn [bind].
    + rewrite IH. split.
      * intro H. constructor; [now exists x | exact H].
      * intro H. now inversion H.
    + split.
      * intros [h H]. discriminate.
      * intro H. inversion H as [|? ? [x Hx] _]; subst. congruence.
Qed.

(** The first unit whose term raises ends the loop with its exception. *)
Lemma for_each_first_failure (pre post : list Z) (c : Z) (e : exn) :
  forall acc,
    Forall (fun c => defined c) pre -> term c = Raise e ->
    for_each (Chinese.entropy_step table total alpha) (pre ++ c :: post) acc
    = Raise e.
Proof.
  induction pre as [|d pre IH]; intros acc Hp Hc.
  - cbn [app for_each]. rewrite entropy_step_term, Hc. reflexivity.
  - inversion Hp as [|? ? [x Hx] Hp']; subst.
    cbn [app for_each]. rewrite entropy_step_term, Hx. cbn [bind].
    now apply IH.
Qed.

End Accumulation.

(** In exact arithmetic the sum is the sum of the specification, once the
    divisor is not zero and every probability is positive. *)
Lemma sum_in_exact (table : Counter.t) (total : Z) (alpha : R) :
  IZR total + alpha * IZR (Counter.size table) <> 0 ->
  Forall (fun c => 0 < EntropySpec.smoothed_probability
                        c total alpha (Counter.size table))
         (Counter.values table) ->
  EntropySpec.sum_in table total alpha
  = Ok (EntropySpec.entropy table total alpha).
Proof.
  intros Hd Hp. unfold EntropySpec.sum_in.
  rewrite <- for_each_accumulate, entropy_loop by assumption.
  f_equal. unfold EntropySpec.entropy. simpl zero. lra.
Qed.

(** C2, as amended. In every arithmetic, floats included, and for every
    table, total and smoothing parameter, the entropy function computes
    the sum over the units of the table of [-p * log2(p)] with
    [p = (c + alpha) / (total + alpha * N)], [N] the number of units: from
    [0.0] the term [p * log2(p)] of each unit is subtracted in turn, in
    the order of the table; in [SHAKESPEARE.py] with [alpha = 1e-10]. It
    returns this sum exactly when the term of every unit is defined, and
    otherwise raises the exception of the first unit whose term is not.
    In exact arithmetic the sum is the sum of the specification as soon as
    the divisor is not zero and every probability is positive, with
    [alpha = 0] too. *)
Theorem C2_entropy_is_the_accumulated_sum :
  (forall (F : Type) (A : Arith F)
          (table : Counter.t) (total : Z) (alpha : F),
     let term c := EntropySpec.term_in c total alpha (Counter.size table) in
     Chinese.calculate_entropy table total alpha
     = EntropySpec.sum_in table total alpha /\
     Shakespeare.calculate_entropy table total
     = EntropySpec.sum_in table total Shakespeare.smoothing /\
     ((exists h, Chinese.calculate_entropy table total alpha = Ok h) <->
      Forall (fun c => exists x, term c = Ok x) (Counter.values table)) /\
     (forall (pre post : list Z) (c : Z) (e : exn),
        Counter.values table = pre ++ c :: post ->
        Forall (fun c => exists x, term c = Ok x) pre ->
        term c = Raise e ->
        Chinese.calculate_entropy table total alpha = Raise e)) /\
  (forall (table : Counter.t) (total : Z) (alpha : R),
     IZR total + alpha * IZR (Counter.size table) <> 0 ->
     Forall (fun c => 0 < EntropySpec.smoothed_probability
                           c total alpha (Counter.size table))
            (Counter.values table) ->
     EntropySpec.sum_in table total alpha
     = Ok (EntropySpec.entropy table total alpha)).
Proof.
  split.
  - intros F A table total alpha term. subst term.
    split; [|split; [|split]].
    + apply for_each_accumulate.
    + rewrite shakespeare_entropy_eq. apply for_each_accumulate.
    + apply for_each_returns.
    + intros pre post c e E Hp Hc. unfold Chinese.calculate_entropy.
      rewrite E. now apply for_each_first_failure.
  - exact sum_in_exact.
Qed.

(** C2 as stated fails on the table [{"x": 0}] with total [0] and
    [alpha = 0.0]: the divisor [0 + 0.0 * 1] is zero and the function
    raises [ZeroDivisionError] instead of returning a sum, in exact
    arithmetic and on binary64 floats alike. *)
Lemma C2_raises_at_zero_total_and_alpha :
  @Chinese.calculate_entropy R exact [(u "x", 0%Z)] 0 0
  = Raise ZeroDivisionError /\
  forall log2_libm : PrimFloat.float -> PrimFloat.float,
    @Chinese.calculate_entropy _ (binary64 log2_libm)
      [(u "x", 0%Z)] 0 PrimFloat.zero
    = Raise ZeroDivisionError.
Proof.
  split.
  - unfold Chinese.calculate_entropy, Chinese.entropy_step.
    cbn [for_each Counter.values map snd of_int exact bind div add mul].
    unfold Rdiv_py. destruct (Req_dec_T _ 0) as [_|H]; [reflexivity|].
    exfalso. apply H. unfold Counter.size, len. simpl. lra.
  - intro log2_libm. reflexivity.
Qed.

(** *** Bounds *)

Lemma Rsum_cons (x : R) (xs : list R) :
  EntropySpec.Rsum (x :: xs) = x + EntropySpec.Rsum xs.
Proof. reflexivity. Qed.

Section Bounds.
Variable alpha : R.
Variables total N : Z.
Local Abbreviation D := (IZR total + alpha * IZR N).
Local Abbreviation p c := (EntropySpec.smoothed_probability c total alpha N).
Local Abbreviation term c := (- (p c * Rlog2 (p c))).
Hypothesis alpha_nonneg : 0 <= alpha.
Hypothesis D_pos : 0 < D.

Lemma p_pos (c : Z) : (1 <= c)%Z -> 0 < p c.
Proof.
  intro H. apply IZR_le in H. unfold EntropySpec.smoothed_probability.
  apply Rdiv_lt_0_compat; lra.
Qed.

Lemma p_le_1 (c : Z) : IZR c + alpha <= D -> p c <= 1.
Proof.
  intro H. unfold EntropySpec.smoothed_probability.
  apply Rmult_le_reg_r with D; [exact D_pos|].
  unfold Rdiv. rewrite Rmult_assoc, Rinv_l; lra.
Qed.

Lemma p_lt_1 (c : Z) : IZR c + alpha < D -> p c < 1.
Proof.
  intro H. unfold EntropySpec.smoothed_probability.
  apply Rmult_lt_reg_r with D; [exact D_pos|].
  unfold Rdiv. rewrite Rmult_assoc, Rinv_l; lra.
Qed.

(** The probabilities of the counts [ws] add up to their smoothed share. *)
Lemma sum_p (ws : list Z) :
  EntropySpec.Rsum (map (fun c => p c) ws)
  = (IZR (sum ws) + alpha * IZR (len ws)) / D.
Proof.
  induction ws as [|c ws IH].
  - simpl. unfold len. simpl. lra.
  - cbn [map]. rewrite Rsum_cons, IH.
    unfold EntropySpec.smoothed_probability.
    replace (len (c :: ws)) with (1 + len ws)%Z
      by (unfold len; simpl length; lia).
    cbn [sum fold_right]. fold (sum ws).
    rewrite !plus_IZR. field. lra.
Qed.

(** A unit seen at least once contributes at most [p * log2 D]. *)
Lemma term_upper (c : Z) : (1 <= c)%Z -> term c <= p c * Rlog2 D.
Proof.
  intro H. pose proof (p_pos c H) as Hp. apply IZR_le in H.
  unfold EntropySpec.smoothed_probability at 2.
  rewrite Rlog2_div; [|lra|exact D_pos].
  assert (0 <= Rlog2 (IZR c + alpha)) by (apply Rlog2_nonneg; lra).
  assert (0 <= p c * Rlog2 (IZR c + alpha)) by (apply Rmult_le_pos; lra).
  lra.
Qed.

Lemma term_nonneg (c : Z) : (1 <= c)%Z -> IZR c + alpha <= D -> 0 <= term c.
Proof.
  intros H1 H2. pose proof (p_pos c H1) as Hp.
  destruct (p_le_1 c H2) as [Hlt|Heq].
  - pose proof (Rlog2_neg (p c) Hp Hlt) as Hl.
    assert (p c * Rlog2 (p c) < 0); [|lra].
    rewrite <- (Rmult_0_r (p c)). apply Rmult_lt_compat_l; assumption.
  - rewrite Heq, Rlog2_1. lra.
Qed.

Lemma term_pos (c : Z) : (1 <= c)%Z -> IZR c + alpha < D -> 0 < term c.
Proof.
  intros H1 H2. pose proof (p_pos c H1) as Hp.
  pose proof (Rlog2_neg (p c) Hp (p_lt_1 c H2)) as Hl.
  assert (p c * Rlog2 (p c) < 0); [|lra].
  rewrite <- (Rmult_0_r (p c)). apply Rmult_lt_compat_l; assumption.
Qed.

Lemma sum_term_upper (ws : list Z) :
  Forall (fun c => (1 <= c)%Z) ws ->
  EntropySpec.Rsum (map (fun c => term c) ws)
  <= EntropySpec.Rsum (map (fun c => p c) ws) * Rlog2 D.
Proof.
  induction 1 as [|c ws Hc _ IH]; simpl.
  - lra.
  - pose proof (term_upper c Hc). lra.
Qed.

Lemma sum_term_nonneg (ws : list Z) :
  Forall (fun c => (1 <= c)%Z /\ IZR c + alpha <= D) ws ->
  0 <= EntropySpec.Rsum (map (fun c => term c) ws).
Proof.
  induction 1 as [|c ws [Hc Hd] _ IH]; simpl.
  - lra.
  - pose proof (term_nonneg c Hc Hd). lra.
Qed.

End Bounds.

Lemma len_le_sum (vs : list Z) :
  Forall (fun v => (1 <= v)%Z) vs -> (len vs <= sum vs)%Z.
Proof.
  induction 1 as [|v vs Hv _ IH].
  - reflexivity.
  - rewrite len_cons, sum_cons. lia.
Qed.

(** Among counts that are all at least one, each count leaves room in the
    sum for one occurrence of every other. *)
Lemma count_le_sum (vs : list Z) (c : Z) :
  Forall (fun v => (1 <= v)%Z) vs -> In c vs ->
  (c + (len vs - 1) <= sum vs)%Z.
Proof.
  induction 1 as [|v vs Hv Hvs IH]; intros [].
  - subst v. pose proof (len_le_sum vs Hvs).
    rewrite len_cons, sum_cons. lia.
  - specialize (IH H). rewrite len_cons, sum_cons. lia.
Qed.

Lemma len_values (table : Counter.t) :
  len (Counter.values table) = Counter.size table.
Proof. unfold len, Counter.size, Counter.values, len. now rewrite length_map. Qed.

(** The bounds of the entropy of a table of observed units, in exact
    arithmetic. *)
Lemma entropy_bounds (table : Counter.t) (total : Z) (alpha : R) :
  table <> [] ->
  Forall (fun v => (1 <= v)%Z) (Counter.values table) ->
  total = sum (Counter.values table) ->
  0 <= alpha ->
  exists h : R,
    Chinese.calculate_entropy table total alpha = Ok h /\
    0 <= h <= Rlog2 (IZR total + alpha * IZR (Counter.size table)) /\
    (h = 0 <-> length table = 1%nat).
Proof.
  intros Hne Hv Ht Ha.
  pose proof (len_values table) as HN.
  set (N := Counter.size table) in *.
  set (vs := Counter.values table) in *.
  assert (HN1 : (1 <= N)%Z).
  { subst N. destruct table; [congruence|].
    unfold Counter.size, len. simpl length. lia. }
  assert (HtN : (N <= total)%Z).
  { subst total. rewrite <- HN. clear -Hv.
    induction Hv as [|v ws Hw _ IH]; unfold len in *; simpl in *; lia. }
  pose proof (IZR_le _ _ HN1) as HN1r. pose proof (IZR_le _ _ HtN) as HtNr.
  assert (HaN : 0 <= alpha * IZR N) by (apply Rmult_le_pos; lra).
  assert (HD : 0 < IZR total + alpha * IZR N) by lra.
  assert (Hroom : forall c, In c vs ->
                    (1 <= c)%Z /\ IZR c + alpha <= IZR total + alpha * IZR N).
  { intros c Hc. split.
    - rewrite Forall_forall in Hv. now apply Hv.
    - pose proof (count_le_sum vs c Hv Hc) as Hs. rewrite HN, <- Ht in Hs.
      assert (Hct : (c <= total)%Z) by lia. apply IZR_le in Hct.
      assert (alpha * 1 <= alpha * IZR N)
        by (apply Rmult_le_compat_l; lra).
      lra. }
  exists (EntropySpec.entropy table total alpha). split; [|split; [split|]].
  - unfold Chinese.calculate_entropy. rewrite entropy_loop.
    + f_equal. unfold EntropySpec.entropy. simpl zero. lra.
    + fold N. lra.
    + fold N. fold vs. eapply Forall_impl; [|exact Hv].
      intros c Hc. now apply p_pos.
  - unfold EntropySpec.entropy. fold N vs. cbv zeta.
    apply sum_term_nonneg; try assumption.
    apply Forall_forall. exact Hroom.
  - unfold EntropySpec.entropy. fold N vs. cbv zeta.
    eapply Rle_trans; [apply sum_term_upper; assumption|].
    rewrite sum_p by exact HD. rewrite HN, <- Ht.
    unfold Rdiv. rewrite Rinv_r; lra.
  - unfold EntropySpec.entropy. fold N vs. cbv zeta. split.
    + intro H0. destruct table as [|[k1 c1] [|[k2 c2] rest]];
        [congruence | reflexivity | exfalso].
      subst vs. cbn [Counter.values map snd] in *. rewrite Rsum_cons in H0.
      assert (Hc1 : (1 <= c1)%Z) by (inversion Hv; assumption).
      assert (Hs : In c1 (c1 :: c2 :: map snd rest)) by now left.
      pose proof (count_le_sum _ c1 Hv Hs) as Hsum. rewrite <- Ht in Hsum.
      assert (Hlt : (c1 + 1 <= total)%Z).
      { unfold len in Hsum. simpl length in Hsum. lia. }
      apply IZR_le in Hlt. rewrite plus_IZR in Hlt.
      assert (alpha * 1 <= alpha * IZR N)
        by (apply Rmult_le_compat_l; lra).
      assert (P : 0 < - (EntropySpec.smoothed_probability c1 total alpha N
                         * Rlog2 (EntropySpec.smoothed_probability
                                    c1 total alpha N))).
      { apply term_pos; try assumption. lra. }
      assert (Q : 0 <= EntropySpec.Rsum
                         (map (fun c =>
                                 - (EntropySpec.smoothed_probability
                                      c total alpha N
                                    * Rlog2 (EntropySpec.smoothed_probability
                                               c total alpha N)))
                              (c2 :: map snd rest))).
      { apply sum_term_nonneg; try assumption.
        apply Forall_forall. intros c Hc. apply Hroom. now right. }
      cbn [map] in Q. lra.
    + intro H1. destruct table as [|[k1 c1] [|kv rest]];
        [congruence | | discriminate].
      subst vs N. cbn [Counter.values map snd] in *.
      rewrite Rsum_cons. simpl EntropySpec.Rsum.
      assert (E : EntropySpec.smoothed_probability
                    c1 total alpha (Counter.size [(k1, c1)]) = 1).
      { unfold EntropySpec.smoothed_probability.
        subst total. simpl sum. rewrite Z.add_0_r.
        unfold Counter.size, len. simpl length. simpl IZR at 3.
        unfold Rdiv. rewrite Rmult_1_r. apply Rinv_r.
        unfold Counter.size, len in HD. simpl in HD.
        rewrite Z.add_0_r in HD. lra. }
      rewrite E, Rlog2_1. lra.
Qed.

(** C6, as amended. For every non-empty table of observed units (every
    count at least one), with [total] the sum of its counts and a
    smoothing parameter that is not negative, the entropy in exact
    arithmetic, the value the floating-point loop approximates, is some
    [h] with [0 <= h <= log2(total + alpha * N)], and [h] is zero exactly
    when the table has a single unit; in [SHAKESPEARE.py] with
    [alpha = 1e-10]. On binary64 floats neither the upper bound nor the
    return of a value holds for all such tables, as the counterexample
    shows: the bounds are those of the exact value only. *)
Theorem C6_entropy_bounds_of_observed_tables
  (table : Counter.t) (total : Z) (alpha : R) :
  table <> [] ->
  Forall (fun v => (1 <= v)%Z) (Counter.values table) ->
  total = sum (Counter.values table) ->
  0 <= alpha ->
  (exists h : R,
     Chinese.calculate_entropy table total alpha = Ok h /\
     0 <= h <= Rlog2 (IZR total + alpha * IZR (Counter.size table)) /\
     (h = 0 <-> length table = 1%nat)) /\
  (exists h : R,
     Shakespeare.calculate_entropy table total = Ok h /\
     0 <= h <= Rlog2 (IZR total
                      + Shakespeare.smoothing * IZR (Counter.size table)) /\
     (h = 0 <-> length table = 1%nat)).
Proof.
  intros Hne Hv Ht Ha. split.
  - now apply entropy_bounds.
  - rewrite shakespeare_entropy_eq. apply entropy_bounds; try assumption.
    left. apply literal_pos. lia.
Qed.

Lemma default_alpha_range : 0 < Chinese.default_alpha < 1.
Proof. unfold Chinese.default_alpha. simpl. lra. Qed.

(** On a table whose only unit has count zero, with
    [total = 0] and [alpha = 1e-5] the entropy is [0], and the claimed
    upper bound [log2(0 + 1e-5 * 1)] is negative. *)
Lemma zero_total_bound_fails :
  Chinese.calculate_entropy [(u "x", 0%Z)] 0 Chinese.default_alpha = Ok 0 /\
  ~ (0 <= 0 <= Rlog2 (IZR 0 + Chinese.default_alpha
                               * IZR (Counter.size [(u "x", 0%Z)]))).
Proof.
  pose proof default_alpha_range as [A0 A1].
  split.
  - unfold Chinese.calculate_entropy. rewrite entropy_loop.
    + f_equal. simpl.
      replace (EntropySpec.smoothed_probability 0 0 _ _) with 1.
      * rewrite Rlog2_1. lra.
      * unfold EntropySpec.smoothed_probability, Counter.size, len.
        simpl length. simpl IZR. field; lra.
    + unfold Counter.size, len. simpl length. simpl IZR. lra.
    + constructor; [|constructor].
      unfold EntropySpec.smoothed_probability, Counter.size, len.
      simpl length. simpl IZR. apply Rdiv_lt_0_compat; lra.
  - intros [_ H]. revert H. apply Rlt_not_le.
    apply Rlog2_neg; unfold Counter.size, len; simpl length; simpl IZR; lra.
Qed.

End EntropyFacts.

(** *** The bounds on binary64 floats *)

Section FloatRounding.
Import PrimFloat.

(** Each of the hundred characters from U+4E00 on, once. *)
Lemma uniform_run :
  let p := Chinese.run Chinese.lcut_chars
             [concat (Units.alphabet 0x4e00 100)] in
  Chinese.total_chars p = 100%Z /\
  Counter.size (Chinese.char_counter p) = 100%Z /\
  Forall (fun v => v = 1%Z) (Counter.values (Chinese.char_counter p)).
Proof.
  vm_compute. repeat split. repeat constructor.
Qed.

(** C6 as stated fails in three ways. On a table whose only unit has
    count zero, with [total = 0] and [alpha = 1e-5], the entropy is [0]
    and the claimed upper bound [log2(0 + 1e-5 * 1)] is negative. On
    binary64 floats the bound does not survive rounding even for a table
    the program builds: for a text of a hundred characters, each once,
    and [alpha = 0.0], the function returns [6.643856189774739] while
    [log2(100 + 0.0 * 100)] is [6.643856189774724]. And on binary64 floats
    a count of [2 ** 1024] makes the function raise [OverflowError]
    instead of returning a value. *)
Lemma C6_bounds_fail :
  (@Chinese.calculate_entropy R PyFloat.exact
     [(u "x", 0%Z)] 0 Chinese.default_alpha = PyFloat.Ok 0%R /\
   ~ (0 <= 0 <= PyFloat.Rlog2
                  (IZR 0 + Chinese.default_alpha
                           * IZR (Counter.size [(u "x", 0%Z)])))%R) /\
  (let p := Chinese.run Chinese.lcut_chars
              [concat (Units.alphabet 0x4e00 100)] in
   let A := PyFloat.binary64 Libm.log2_at in
   @Chinese.calculate_entropy _ A
     (Chinese.char_counter p) (Chinese.total_chars p) 0%float
   = PyFloat.Ok 0x1.a934f0979a382p+2%float /\
   (t <- @PyFloat.of_int _ A (Chinese.total_chars p) ;;
    n <- @PyFloat.of_int _ A (Counter.size (Chinese.char_counter p)) ;;
    @PyFloat.log2 _ A (t + 0 * n)%float)
   = PyFloat.Ok 0x1.a934f0979a371p+2%float /\
   (0x1.a934f0979a371p+2 <? 0x1.a934f0979a382p+2)%float = true) /\
  (forall log2_libm : float -> float,
     let A := PyFloat.binary64 log2_libm in
     @Chinese.calculate_entropy _ A
       [(u "x", (2 ^ 1024)%Z)] (2 ^ 1024) (@Chinese.default_alpha _ A)
     = PyFloat.Raise PyFloat.OverflowError).
Proof.
  split; [exact zero_total_bound_fails | split].
  - vm_compute. repeat split.
  - intro log2_libm. vm_compute. reflexivity.
Qed.

End FloatRounding.

(** ** Word extraction in [SHAKESPEARE.py] *)

Section WordExtraction.
Import Shakespeare.
Variable U : Unicode.table.

Lemma is_az_word (c : N) : is_az c = true -> Unicode.is_word U c = true.
Proof.
  unfold is_az, Unicode.is_word, Unicode.ascii_word, Unicode.between.
  intro H. apply andb_prop in H. destruct H as [H1 H2].
  apply N.leb_le in H1. apply N.leb_le in H2.
  assert (E : (c <? 128)%N = true) by (apply N.ltb_lt; lia).
  rewrite E. apply N.leb_le in H1. apply N.leb_le in H2.
  rewrite H1, H2. simpl. now rewrite !orb_true_r.
Qed.

Lemma apostrophe_not_word : Unicode.is_word U apostrophe = false.
Proof. reflexivity. Qed.

Lemma in_class_cases (c : N) :
  in_class c = true -> is_az c = true \/ c = apostrophe.
Proof.
  unfold in_class. intro H. apply orb_prop in H.
  destruct H as [H|H]; [now left | right; now apply N.eqb_eq].
Qed.

Lemma apostrophe_not_az : is_az apostrophe = false.
Proof. reflexivity. Qed.

(** *** The repetition *)

Lemma stop_here_Some (n : nat) (last next : option N) (w : str) :
  stop_here U n last next = Some w ->
  w = [] /\ (2 <= n)%nat /\ boundary U last next = true.
Proof.
  unfold stop_here. destruct (2 <=? n)%nat eqn:E; simpl; [|discriminate].
  apply Nat.leb_le in E.
  destruct (boundary U last next); [|discriminate].
  intro H. inversion H. auto.
Qed.

Lemma stop_here_intro (n : nat) (last next : option N) :
  (2 <= n)%nat -> boundary U last next = true ->
  stop_here U n last next = Some [].
Proof.
  intros Hn Hb. unfold stop_here. apply Nat.leb_le in Hn.
  now rewrite Hn, Hb.
Qed.

(** What a successful repetition returns: characters of the class, at
    least two with those already taken, a prefix of the text. *)
Lemma repeat_class_sound (s : str) :
  forall n last w,
    repeat_class U n last s = Some w ->
    forallb in_class w = true /\ (2 <= n + length w)%nat /\
    exists rest, s = w ++ rest.
Proof.
  assert (Hstop : forall n last next w t,
             stop_here U n last next = Some w ->
             forallb in_class w = true /\ (2 <= n + length w)%nat /\
             exists rest, t = w ++ rest).
  { intros n last next w t H.
    apply stop_here_Some in H. destruct H as [-> [Hn _]].
    simpl. repeat split; [lia | now exists t]. }
  induction s as [|c r IH]; intros n last w H; cbn [repeat_class] in H.
  - exact (Hstop _ _ _ _ _ H).
  - destruct (in_class c) eqn:Hc; [|exact (Hstop _ _ _ _ _ H)].
    destruct (repeat_class U (S n) (Some c) r) as [w'|] eqn:Hr;
      [|exact (Hstop _ _ _ _ _ H)].
    inversion H; subst. destruct (IH _ _ _ Hr) as [H1 [H2 [rest H3]]].
    simpl. rewrite Hc, H1. repeat split; [lia|].
    exists rest. now rewrite H3.
Qed.

(** With more characters already taken the repetition still succeeds. *)
Lemma repeat_class_mono (s : str) :
  forall n n' last w,
    repeat_class U n last s = Some w -> (n <= n')%nat ->
    exists w', repeat_class U n' last s = Some w'.
Proof.
  assert (Hstop : forall n n' last next w,
             stop_here U n last next = Some w -> (n <= n')%nat ->
             stop_here U n' last next = Some []).
  { intros n n' last next w H Hn.
    apply stop_here_Some in H. destruct H as [_ [H2 Hb]].
    apply stop_here_intro; [lia | exact Hb]. }
  induction s as [|c r IH]; intros n n' last w H Hn;
    cbn [repeat_class] in *.
  - rewrite (Hstop _ _ _ _ _ H Hn). now eexists.
  - destruct (in_class c) eqn:Hc.
    + destruct (repeat_class U (S n) (Some c) r) as [w0|] eqn:Hr.
      * destruct (IH (S n) (S n') (Some c) w0 Hr ltac:(lia)) as [w' Hw'].
        rewrite Hw'. now eexists.
      * destruct (repeat_class U (S n') (Some c) r) as [w1|];
          [now eexists|].
        rewrite (Hstop _ _ _ _ _ H Hn). now eexists.
    + rewrite (Hstop _ _ _ _ _ H Hn). now eexists.
Qed.

Lemma repeat_class_mono_None (s : str) (n n' : nat) (last : option N) :
  repeat_class U n' last s = None -> (n <= n')%nat ->
  repeat_class U n last s = None.
Proof.
  intros H Hn. destruct (repeat_class U n last s) as [w|] eqn:E;
    [|reflexivity].
  destruct (repeat_class_mono s n n' last w E Hn) as [w' Hw'].
  congruence.
Qed.

(** After one character already taken, nothing is matched unless a
    further character of the class is. *)
Lemma repeat_class_1 (last : option N) (s : str) :
  repeat_class U 1 last s =
  match s with
  | [] => None
  | c :: r =>
      if in_class c then
        match repeat_class U 2 (Some c) r with
        | Some w => Some (c :: w)
        | None => None
        end
      else None
  end.
Proof. destruct s; reflexivity. Qed.

(** The repetition is greedy: past a match no further character of the
    class can be taken up to a boundary. *)
Lemma repeat_class_greedy (s : str) :
  forall n last w,
    repeat_class U n last s = Some w ->
    repeat_class U 1 (last_of last w) (skipn (length w) s) = None.
Proof.
  induction s as [|c r IH]; intros n last w H; cbn [repeat_class] in H.
  - apply stop_here_Some in H. destruct H as [-> _]. reflexivity.
  - destruct (in_class c) eqn:Hc.
    + destruct (repeat_class U (S n) (Some c) r) as [w'|] eqn:Hr.
      * inversion H; subst. simpl. apply (IH _ _ _ Hr).
      * apply stop_here_Some in H. destruct H as [-> [Hn _]].
        simpl skipn. simpl last_of. rewrite repeat_class_1, Hc.
        rewrite (repeat_class_mono_None r 2 (S n) (Some c) Hr); [|lia].
        reflexivity.
    + apply stop_here_Some in H. destruct H as [-> _].
      simpl skipn. simpl last_of. now rewrite repeat_class_1, Hc.
Qed.

Lemma repeat_class_nil (m : nat) (last : option N) (s : str) :
  repeat_class U m last s = Some [] ->
  (2 <= m)%nat /\ boundary U last (hd_error s) = true.
Proof.
  destruct s as [|c r]; cbn [repeat_class hd_error]; intro H.
  - apply stop_here_Some in H. tauto.
  - destruct (in_class c).
    + destruct (repeat_class U (S m) (Some c) r); [discriminate|].
      apply stop_here_Some in H. tauto.
    + apply stop_here_Some in H. tauto.
Qed.

(** *** Plain texts *)

Lemma word_at_plain (o : option N) :
  plain_opt U o -> word_at U o = true ->
  exists l, o = Some l /\ is_az l = true.
Proof.
  destruct o as [l|]; simpl; [|discriminate].
  intros Hp Hw. exists l. auto.
Qed.

Lemma plain_not_in_class (c : N) :
  (Unicode.is_word U c = true -> is_az c = true) ->
  in_class c = false -> Unicode.is_word U c = false.
Proof.
  intros Hp Hc. destruct (Unicode.is_word U c); [|reflexivity].
  unfold in_class in Hc. rewrite (Hp eq_refl) in Hc. discriminate.
Qed.

(** In a plain text, once a letter has been taken among at least two
    characters, the repetition succeeds: the run of class characters ends
    after a letter, and a boundary stands there. *)
Lemma repeat_class_after_letter (r : str) :
  plain U r ->
  forall d m, is_az d = true -> (2 <= m)%nat ->
    exists w, repeat_class U m (Some d) r = Some w.
Proof.
  induction 1 as [|e r He Hr IH]; intros d m Hd Hm; cbn [repeat_class].
  - rewrite stop_here_intro; [now eexists | exact Hm |].
    unfold boundary. simpl. now rewrite (is_az_word d Hd).
  - destruct (in_class e) eqn:Hc.
    + destruct (in_class_cases e Hc) as [Haz|Hap].
      * destruct (IH e (S m) Haz ltac:(lia)) as [w Hw].
        rewrite Hw. now eexists.
      * destruct (repeat_class U (S m) (Some e) r); [now eexists|].
        rewrite stop_here_intro; [now eexists | exact Hm |].
        unfold boundary. simpl. subst e.
        now rewrite (is_az_word d Hd), apostrophe_not_word.
    + rewrite stop_here_intro; [now eexists | exact Hm |].
      unfold boundary. simpl.
      now rewrite (is_az_word d Hd), (plain_not_in_class e He Hc).
Qed.

(** In a plain text a match ends with a letter. *)
Lemma repeat_class_ends_with_letter (s : str) :
  plain U s ->
  forall n last w,
    repeat_class U n last s = Some w ->
    w = [] \/ is_az (List.last w 0%N) = true.
Proof.
  induction 1 as [|c r Hc Hr IH]; intros n last w H; cbn [repeat_class] in H.
  - apply stop_here_Some in H. tauto.
  - destruct (in_class c) eqn:Hcl;
      [|apply stop_here_Some in H; tauto].
    destruct (repeat_class U (S n) (Some c) r) as [w'|] eqn:Hw';
      [|apply stop_here_Some in H; tauto].
    inversion H; subst. right.
    destruct (IH _ _ _ Hw') as [->|Hl].
    + simpl. destruct (in_class_cases c Hcl) as [Haz|Hap]; [exact Haz|].
      exfalso. subst c.
      destruct (repeat_class_nil _ _ _ Hw') as [_ Hb].
      unfold boundary in Hb. simpl word_at in Hb at 1.
      rewrite apostrophe_not_word in Hb. simpl in Hb.
      destruct r as [|d r']; [discriminate|]. simpl in Hb.
      inversion Hr as [|? ? Hd Hr']; subst.
      pose proof (Hd Hb) as Hdaz.
      cbn [repeat_class] in Hw'.
      assert (Hdc : in_class d = true)
        by (unfold in_class; now rewrite Hdaz).
      rewrite Hdc in Hw'.
      destruct (repeat_class_after_letter r' Hr' d (S (S n)) Hdaz
                  ltac:(lia)) as [w2 Hw2].
      rewrite Hw2 in Hw'. discriminate.
    + destruct w' as [|x w'']; [discriminate Hl|]. exact Hl.
Qed.

(** *** The scan *)

Lemma last_of_cons (o : option N) (c : N) (w : str) :
  last_of o (c :: w) = last_of (Some c) w.
Proof. reflexivity. Qed.

(** Passing over the characters of a match. *)
Lemma findall_skip (a s : str) :
  forall prev,
    findall_from U (length a) prev (a ++ s)
    = findall_from U 0 (last_of prev a) s.
Proof.
  induction a as [|c a IH]; intro prev.
  - reflexivity.
  - simpl. apply IH.
Qed.

Lemma match_at_Some (prev : option N) (s w : str) :
  match_at U prev s = Some w ->
  boundary U prev (hd_error s) = true /\ repeat_class U 0 prev s = Some w.
Proof.
  unfold match_at. destruct (boundary U prev (hd_error s));
    [auto | discriminate].
Qed.

(** A match is not empty: it starts with the character at the position. *)
Lemma match_at_shape (prev : option N) (c : N) (r w : str) :
  match_at U prev (c :: r) = Some w ->
  exists w' rest, w = c :: w' /\ r = w' ++ rest /\ (1 <= length w')%nat.
Proof.
  intro H. apply match_at_Some in H. destruct H as [_ H].
  destruct (repeat_class_sound _ _ _ _ H) as [_ [Hl [rest Hr]]].
  destruct w as [|x w']; [simpl in Hl; lia|].
  simpl in Hr. inversion Hr; subst.
  exists w', rest. simpl in Hl. repeat split. lia.
Qed.

Lemma findall_step_match (prev : option N) (c : N) (r w : str) :
  match_at U prev (c :: r) = Some w ->
  findall_from U 0 prev (c :: r)
  = w :: findall_from U 0 (last_of prev w) (skipn (length w) (c :: r)).
Proof.
  intro H. destruct (match_at_shape _ _ _ _ H) as [w' [rest [-> [-> _]]]].
  cbn [findall_from]. rewrite H. f_equal.
  replace (length (c :: w') - 1)%nat with (length w')
    by (simpl length; lia).
  rewrite findall_skip, last_of_cons.
  f_equal. simpl. rewrite skipn_app, skipn_all, Nat.sub_diag. reflexivity.
Qed.

Lemma findall_step_none (prev : option N) (c : N) (r : str) :
  match_at U prev (c :: r) = None ->
  findall_from U 0 prev (c :: r) = findall_from U 0 (Some c) r.
Proof. intro H. cbn [findall_from]. now rewrite H. Qed.

(** Every word found has at least two characters, all of the class
    [[a-z']], whatever the text. *)
Lemma findall_in_class (s : str) :
  forall skip prev w,
    In w (findall_from U skip prev s) ->
    (2 <= length w)%nat /\ forallb in_class w = true.
Proof.
  induction s as [|c r IH]; intros skip prev w H; cbn [findall_from] in H.
  - contradiction.
  - destruct skip as [|k]; [|exact (IH _ _ _ H)].
    destruct (match_at U prev (c :: r)) as [w0|] eqn:M;
      [|exact (IH _ _ _ H)].
    destruct H as [<-|H]; [|exact (IH _ _ _ H)].
    apply match_at_Some in M. destruct M as [_ M].
    destruct (repeat_class_sound _ _ _ _ M) as [H1 [H2 _]].
    split; [lia | exact H1].
Qed.

Lemma plain_app (a b : str) : plain U (a ++ b) -> plain U a /\ plain U b.
Proof. unfold plain. apply Forall_app. Qed.

Lemma plain_opt_last_of (o : option N) (w : str) :
  plain_opt U o -> plain U w -> plain_opt U (last_of o w).
Proof.
  intros Ho Hw. revert o Ho.
  induction Hw as [|c w Hc _ IH]; intros o Ho.
  - exact Ho.
  - rewrite last_of_cons. apply IH. exact Hc.
Qed.

(** In a plain text a match starts with a letter, when the scan is quiet
    at its position. *)
Lemma match_at_starts_with_letter (prev : option N) (c : N) (r w : str) :
  plain_opt U prev -> quiet U prev (c :: r) ->
  match_at U prev (c :: r) = Some w -> is_az c = true.
Proof.
  intros Hp Hq M.
  destruct (match_at_shape _ _ _ _ M) as [w' [rest [-> [-> _]]]].
  apply match_at_Some in M. destruct M as [Hb M].
  destruct (repeat_class_sound _ _ _ _ M) as [Hcl _].
  simpl in Hcl. apply andb_prop in Hcl. destruct Hcl as [Hc _].
  destruct (in_class_cases c Hc) as [Haz|Hap]; [exact Haz|].
  exfalso. subst c. unfold boundary in Hb. simpl hd_error in Hb.
  simpl word_at in Hb at 2. rewrite apostrophe_not_word in Hb.
  rewrite xorb_false_r in Hb.
  destruct (word_at_plain prev Hp Hb) as [l [-> Hl]].
  specialize (Hq Hl). rewrite repeat_class_1, Hc in Hq.
  cbn [repeat_class] in M. rewrite Hc in M.
  destruct (repeat_class U 1 (Some apostrophe) (w' ++ rest))
    as [w1|] eqn:E1.
  - destruct (repeat_class_mono _ 1 2 _ _ E1 ltac:(lia)) as [w2 E2].
    rewrite E2 in Hq. discriminate.
  - apply stop_here_Some in M. lia.
Qed.

(** Where no match is found the scan stays quiet one character on. *)
Lemma quiet_after_failure (prev : option N) (c : N) (r : str) :
  plain_opt U prev -> quiet U prev (c :: r) ->
  match_at U prev (c :: r) = None -> quiet U (Some c) r.
Proof.
  intros Hp Hq M Hc. simpl.
  assert (Hcl : in_class c = true) by (unfold in_class; now rewrite Hc).
  unfold match_at in M. simpl hd_error in M.
  destruct (boundary U prev (Some c)) eqn:Hb.
  - cbn [repeat_class] in M. rewrite Hcl in M.
    destruct (repeat_class U 1 (Some c) r); [discriminate | reflexivity].
  - unfold boundary in Hb. simpl word_at in Hb at 2.
    rewrite (is_az_word c Hc) in Hb.
    assert (Hw : word_at U prev = true)
      by (destruct (word_at U prev); [reflexivity | discriminate]).
    destruct (word_at_plain prev Hp Hw) as [l [-> Hl]].
    specialize (Hq Hl). rewrite repeat_class_1, Hcl in Hq.
    apply repeat_class_mono_None with (n' := 2%nat); [|lia].
    destruct (repeat_class U 2 (Some c) r); [discriminate | reflexivity].
Qed.

(** On a plain text every word the scan finds is well shaped. *)
Lemma scan_well_shaped (n : nat) :
  forall s prev,
    (length s <= n)%nat -> plain_opt U prev -> plain U s -> quiet U prev s ->
    forall w, In w (findall_from U 0 prev s) -> well_shaped w = true.
Proof.
  induction n as [|n IH]; intros s prev Hlen Hp Hs Hq w Hin.
  - destruct s; [contradiction | simpl in Hlen; lia].
  - destruct s as [|c r]; [contradiction|].
    simpl in Hlen.
    destruct (match_at U prev (c :: r)) as [w0|] eqn:M.
    + rewrite (findall_step_match _ _ _ _ M) in Hin.
      destruct (match_at_shape _ _ _ _ M) as [w' [rest [E [Er Hw']]]].
      pose proof (match_at_Some _ _ _ M) as [_ R].
      assert (Hpw : plain U w0).
      { subst w0 r. change (c :: w' ++ rest) with ((c :: w') ++ rest) in Hs.
        now apply plain_app in Hs. }
      destruct Hin as [<-|Hin].
      * destruct (repeat_class_sound _ _ _ _ R) as [Hcl [Hl2 _]].
        destruct (repeat_class_ends_with_letter _ Hs _ _ _ R) as [E0|Hlast];
          [subst w0; discriminate|].
        pose proof (match_at_starts_with_letter _ _ _ _ Hp Hq M) as Hfirst.
        unfold well_shaped. rewrite Hcl, Hlast. subst w0. simpl hd.
        rewrite Hfirst.
        assert (L : (2 <=? length (c :: w'))%nat = true)
          by (apply Nat.leb_le; simpl in *; lia).
        now rewrite L.
      * apply (IH (skipn (length w0) (c :: r)) (last_of prev w0)).
        -- rewrite length_skipn. subst w0. simpl length. lia.
        -- now apply plain_opt_last_of.
        -- rewrite <- (firstn_skipn (length w0) (c :: r)) in Hs.
           now apply plain_app in Hs.
        -- pose proof (repeat_class_greedy _ _ _ _ R) as G.
           unfold quiet. destruct (last_of prev w0); [|exact I].
           intros _. exact G.
        -- exact Hin.
    + rewrite (findall_step_none _ _ _ M) in Hin.
      inversion Hs as [|? ? Hc Hr]; subst.
      apply (IH r (Some c)); try assumption; [lia|].
      now apply (quiet_after_failure prev).
Qed.

(** *** Characters the pattern passes over *)

Import Units.

Lemma stop_here_0 (last next : option N) : stop_here U 0 last next = None.
Proof. reflexivity. Qed.

(** A fresh attempt reads the character before it only for the boundary. *)
Lemma repeat_class_0_prev (prev prev' : option N) (s : str) :
  repeat_class U 0 prev s = repeat_class U 0 prev' s.
Proof.
  destruct s as [|c r]; cbn [repeat_class]; rewrite !stop_here_0;
    reflexivity.
Qed.

Lemma match_at_prev (prev prev' : option N) (s : str) :
  word_at U prev = word_at U prev' ->
  match_at U prev s = match_at U prev' s.
Proof.
  intro H. unfold match_at, boundary. rewrite H.
  now rewrite (repeat_class_0_prev prev prev').
Qed.

Lemma findall_prev (prev prev' : option N) (s : str) :
  word_at U prev = word_at U prev' ->
  findall_from U 0 prev s = findall_from U 0 prev' s.
Proof.
  intro H. destruct s as [|c r]; [reflexivity|].
  cbn [findall_from]. now rewrite (match_at_prev prev prev' _ H).
Qed.

Lemma match_at_not_class (prev : option N) (x : N) (s : str) :
  in_class x = false -> match_at U prev (x :: s) = None.
Proof.
  intro H. unfold match_at. cbn [repeat_class]. rewrite H, stop_here_0.
  now destruct (boundary U prev (hd_error (x :: s))).
Qed.

Lemma inert_spec (x : N) :
  inert U x = true -> in_class x = false /\ word_at U (Some x) = false.
Proof.
  unfold inert. intro H. apply andb_prop in H. destruct H as [A B].
  apply negb_true_iff in A. apply negb_true_iff in B. now split.
Qed.

(** An inert character at the head is passed, and forgotten. *)
Lemma findall_inert_head (prev : option N) (x : N) (s : str) :
  inert U x = true ->
  findall_from U 0 prev (x :: s) = findall_from U 0 None s.
Proof.
  intro H. destruct (inert_spec x H) as [Hc Hw].
  cbn [findall_from]. rewrite (match_at_not_class prev x s Hc).
  now apply findall_prev.
Qed.

Lemma repeat_class_at_end (a : str) :
  forall n last x t,
    inert U x = true ->
    repeat_class U n last (a ++ x :: t) = repeat_class U n last a.
Proof.
  induction a as [|c a IH]; intros n last x t Hx.
  - destruct (inert_spec x Hx) as [Hc Hw].
    simpl app. cbn [repeat_class]. rewrite Hc.
    unfold stop_here, boundary. now rewrite Hw.
  - simpl app. cbn [repeat_class]. now rewrite (IH (S n) (Some c) x t Hx).
Qed.

Lemma match_at_at_end (prev : option N) (a : str) (x : N) (t : str) :
  inert U x = true ->
  match_at U prev (a ++ x :: t) = match_at U prev a.
Proof.
  intro Hx. unfold match_at. rewrite (repeat_class_at_end a 0 prev x t Hx).
  destruct a; [|reflexivity].
  cbn [app hd_error repeat_class]. rewrite !stop_here_0.
  now destruct (boundary U prev (Some x)), (boundary U prev None).
Qed.

(** A match lies before the first character outside the class. *)
Lemma match_before (prev : option N) (a : str) (x : N) (t w : str) :
  in_class x = false ->
  match_at U prev (a ++ x :: t) = Some w ->
  (length w <= length a)%nat.
Proof.
  intros Hx M. apply match_at_Some in M. destruct M as [_ M].
  destruct (repeat_class_sound _ _ _ _ M) as [Hcl [_ [rest E]]].
  clear M. revert w rest Hcl E.
  induction a as [|c a IH]; intros w rest Hcl E.
  - destruct w as [|y w]; [simpl; lia|].
    simpl in E. inversion E; subst. simpl in Hcl.
    rewrite Hx in Hcl. discriminate.
  - destruct w as [|y w]; [simpl; lia|].
    simpl in E. inversion E; subst. simpl in Hcl.
    apply andb_prop in Hcl. destruct Hcl as [_ Hcl].
    simpl. apply le_n_S. eapply IH; eauto.
Qed.

(** Inert characters at the end of the text change nothing. *)
Lemma findall_inert_suffix (ws : str) :
  forallb (inert U) ws = true ->
  forall s skip prev,
    findall_from U skip prev (s ++ ws) = findall_from U skip prev s.
Proof.
  intro H.
  assert (E : forall skip prev, findall_from U skip prev ws = []).
  { clear -H. induction ws as [|x ws IH]; intros skip prev; [reflexivity|].
    simpl in H. apply andb_prop in H. destruct H as [Hx Hws].
    destruct (inert_spec x Hx) as [Hc _].
    cbn [findall_from]. destruct skip; [|now apply IH].
    rewrite (match_at_not_class prev x ws Hc). now apply IH. }
  induction s as [|c r IH]; intros skip prev.
  - simpl app. rewrite E. now destruct skip.
  - simpl app. cbn [findall_from]. destruct skip as [|k]; [|apply IH].
    assert (M : match_at U prev (c :: r ++ ws) = match_at U prev (c :: r)).
    { destruct ws as [|x ws']; [now rewrite app_nil_r|].
      simpl in H. apply andb_prop in H. destruct H as [Hx _].
      apply (match_at_at_end prev (c :: r) x ws' Hx). }
    rewrite M. destruct (match_at U prev (c :: r)); now rewrite !IH.
Qed.


Lemma findall_split (a : str) :
  forall skip prev x t,
    inert U x = true -> (skip <= length a)%nat ->
    findall_from U skip prev (a ++ x :: t)
    = findall_from U skip prev a ++ findall_from U 0 None t.
Proof.
  induction a as [|c r IH]; intros skip prev x t Hx Hs.
  - simpl in Hs. replace skip with 0%nat by lia.
    simpl app. now rewrite (findall_inert_head prev x t Hx).
  - simpl app. cbn [findall_from]. destruct skip as [|k].
    + assert (M : match_at U prev (c :: r ++ x :: t)
                  = match_at U prev (c :: r))
        by exact (match_at_at_end prev (c :: r) x t Hx).
      destruct (match_at U prev (c :: r ++ x :: t)) as [w|] eqn:E.
      * rewrite <- M. simpl app. f_equal. apply IH; [exact Hx|].
        destruct (inert_spec x Hx) as [Hc _].
        pose proof (match_before prev (c :: r) x t w Hc E) as L.
        simpl in L. lia.
      * rewrite <- M. apply IH; [exact Hx | lia].
    + apply IH; [exact Hx | simpl in Hs; lia].
Qed.

(** The words of a text cut at inert characters are those of its
    pieces. *)
Lemma findall_words_pieces (pre seg post : str) :
  delimited U pre post = true ->
  findall_words U (pre ++ seg ++ post)
  = findall_words U pre ++ findall_words U seg ++ findall_words U post.
Proof.
  unfold delimited, findall_words. intro H.
  apply andb_prop in H. destruct H as [Hl Hr].
  assert (R : findall_from U 0 None (seg ++ post)
              = findall_from U 0 None seg ++ findall_from U 0 None post).
  { destruct post as [|y post'].
    - cbn [findall_from]. now rewrite !app_nil_r.
    - rewrite (findall_split seg 0 None y post' Hr (Nat.le_0_l _)).
      f_equal. symmetry. apply (findall_inert_head None y post' Hr). }
  destruct (rev pre) as [|x l] eqn:E;
    apply (f_equal (@rev N)) in E; rewrite rev_involutive in E;
    cbn [rev] in E; subst pre.
  - exact R.
  - rewrite <- app_assoc. cbn [app].
    rewrite (findall_split (rev l) 0 None x (seg ++ post) Hl (Nat.le_0_l _)).
    rewrite (findall_split (rev l) 0 None x [] Hl (Nat.le_0_l _)).
    cbn [findall_from]. now rewrite app_nil_r, R.
Qed.

End WordExtraction.

(** C8, as amended. For every input block, every word added to the word
    table has at least two characters, all of them lower-case letters or
    apostrophes. The words of the cleaned text are those of its pieces
    between inert characters (blanks, punctuation); and a word found in a
    piece that has no word character besides the letters [a-z] (no digit,
    no underscore, no letter from outside ASCII) begins and ends with a
    letter: apostrophes stand only inside. What stands in the other
    pieces does not matter. *)
Theorem C8_words_of_plain_pieces (U : Unicode.table) (text w : str) :
  In w (Shakespeare.word_units U text) ->
  ((2 <= length w)%nat /\ forallb Shakespeare.in_class w = true) /\
  (forall pre seg post : str,
     Shakespeare._clean_text U text = pre ++ seg ++ post ->
     Units.delimited U pre post = true ->
     Shakespeare.word_units U text
     = Shakespeare.findall_words U pre ++ Shakespeare.findall_words U seg
       ++ Shakespeare.findall_words U post /\
     (Shakespeare.plain U seg ->
      In w (Shakespeare.findall_words U seg) ->
      Shakespeare.well_shaped w = true)).
Proof.
  intro Hin. split.
  - exact (findall_in_class U _ _ _ _ Hin).
  - intros pre seg post E D. split.
    + unfold Shakespeare.word_units. rewrite E.
      now apply findall_words_pieces.
    + intros Hp Hw.
      apply (scan_well_shaped U (length seg) seg None);
        try assumption; try exact I. lia.
Qed.

(** The words of a text of ASCII characters do not depend on the Unicode
    tables; here two apostrophes between two digits. *)
Lemma word_units_apostrophes (U : Unicode.table) :
  Shakespeare.word_units U (u "1''1") = [u "''"].
Proof. reflexivity. Qed.

(** C8 as stated fails on the block ["1''1"]: the pattern matches the two
    apostrophes between the digits, so a word with no letter at all is
    added to the word table. *)
Lemma C8_apostrophes_between_digits :
  (forall U : Unicode.table,
      Shakespeare.word_units U (u "1''1") = [u "''"]) /\
  Shakespeare.well_shaped (u "''") = false.
Proof. split; [exact word_units_apostrophes | reflexivity]. Qed.

(** ** The statements at concrete inputs *)

(** Plainness of a given text is decided character by character. *)
Lemma plain_forallb (U : Unicode.table) (s : str) :
  forallb (fun c => implb (Unicode.is_word U c) (Shakespeare.is_az c)) s
  = true ->
  Shakespeare.plain U s.
Proof.
  intro H. apply Forall_forall. intros c Hc Hw.
  rewrite forallb_forall in H. specialize (H c Hc).
  now rewrite Hw in H.
Qed.

(** C9 after one block has gone through each program, with the
    one-word-per-character segmenter. *)
Lemma C9_empty_block_witness :
  let p := Chinese.run Chinese.lcut_chars [u "中文。中"] in
  let a := Shakespeare.run Unicode.ascii_only [u "To be, or not to be"] in
  Chinese.process_text Chinese.lcut_chars p [] = p /\
  Shakespeare.process Unicode.ascii_only a [] =
  Shakespeare.mkAnalyzer
    (Shakespeare.char_stats a) (Shakespeare.word_stats a)
    (Shakespeare.mkCounts
       (Shakespeare.chars (Shakespeare.counts a))
       (Shakespeare.words (Shakespeare.counts a))
       (Shakespeare.files (Shakespeare.counts a) + 1)).
Proof.
  exact (C9_empty_block_changes_nothing
           Chinese.lcut_chars Unicode.ascii_only
           (Chinese.run Chinese.lcut_chars [u "中文。中"])
           (Shakespeare.run Unicode.ascii_only [u "To be, or not to be"])
           eq_refl).
Defined.

(** C4 on three blocks, fed as two batches and in rotated order. *)
Lemma C4_order_witness :
  let l1 := [u "中文。"; u "to be"] in
  let l2 := [u "文。中or not"] in
  let l := [u "文。中or not"; u "中文。"; u "to be"] in
  (Chinese.feed Chinese.lcut_chars (Chinese.run Chinese.lcut_chars l1) l2
   = Chinese.run Chinese.lcut_chars (l1 ++ l2) /\
   Chinese.same_stats (Chinese.run Chinese.lcut_chars (l1 ++ l2))
                      (Chinese.run Chinese.lcut_chars l)) /\
  (Shakespeare.feed Unicode.ascii_only
     (Shakespeare.run Unicode.ascii_only l1) l2
   = Shakespeare.run Unicode.ascii_only (l1 ++ l2) /\
   Shakespeare.same_stats (Shakespeare.run Unicode.ascii_only (l1 ++ l2))
                          (Shakespeare.run Unicode.ascii_only l)).
Proof.
  exact (C4_order_and_batching_independent
           Chinese.lcut_chars Unicode.ascii_only
           [u "中文。"; u "to be"] [u "文。中or not"]
           [u "文。中or not"; u "中文。"; u "to be"]
           (Permutation_sym
              (Permutation_cons_append
                 [u "中文。"; u "to be"] (u "文。中or not")))).
Defined.

(** The table [{"a": 2, "b": 1}] holds observed units only. *)
Lemma observed_counts :
  Forall (fun v => (1 <= v)%Z)
         (Counter.values [(u "a", 2%Z); (u "b", 1%Z)]).
Proof. repeat constructor; simpl; lia. Qed.

(** C2 on the table [{"a": 2, "b": 1}] with total [3] and no smoothing:
    in exact arithmetic the function returns the sum of the
    specification. *)
Lemma C2_entropy_witness :
  let table := [(u "a", 2%Z); (u "b", 1%Z)] in
  @Chinese.calculate_entropy R PyFloat.exact table 3%Z 0%R
  = PyFloat.Ok (EntropySpec.entropy table 3%Z 0%R).
Proof.
  cbv zeta.
  rewrite (proj1 (proj1 C2_entropy_is_the_accumulated_sum
                    R PyFloat.exact [(u "a", 2%Z); (u "b", 1%Z)] 3%Z 0%R)).
  apply (proj2 C2_entropy_is_the_accumulated_sum).
  - unfold Counter.size, len. simpl. lra.
  - repeat constructor;
      unfold EntropySpec.smoothed_probability, Counter.size, len; simpl;
      lra.
Defined.

(** C6 on the same table: the bounds hold and the entropy is not zero,
    the table having two units. *)
Lemma C6_entropy_bounds_witness :
  let table := [(u "a", 2%Z); (u "b", 1%Z)] in
  (exists h : R,
     Chinese.calculate_entropy table 3 Chinese.default_alpha = PyFloat.Ok h /\
     (0 <= h <= PyFloat.Rlog2 (IZR 3 + Chinese.default_alpha
                                       * IZR (Counter.size table)))%R /\
     (h = 0%R <-> length table = 1%nat)) /\
  (exists h : R,
     Shakespeare.calculate_entropy table 3 = PyFloat.Ok h /\
     (0 <= h <= PyFloat.Rlog2 (IZR 3 + Shakespeare.smoothing
                                       * IZR (Counter.size table)))%R /\
     (h = 0%R <-> length table = 1%nat)).
Proof.
  apply (C6_entropy_bounds_of_observed_tables
           [(u "a", 2%Z); (u "b", 1%Z)] 3 Chinese.default_alpha).
  - discriminate.
  - exact observed_counts.
  - reflexivity.
  - left. exact (proj1 default_alpha_range).
Defined.

(** C8 on a line that opens with a year: the piece after it is plain
    though the line is not, and the words are taken without the
    apostrophes around them. *)
Lemma C8_plain_piece_witness :
  let text := u "In 1599: Don't say 'tis so' " in
  let w := u "don't" in
  Shakespeare.word_units Unicode.ascii_only text
  = [u "in"; u "don't"; u "say"; u "tis"; u "so"] /\
  ~ Shakespeare.plain Unicode.ascii_only
      (Shakespeare._clean_text Unicode.ascii_only text) /\
  ((2 <= length w)%nat /\ forallb Shakespeare.in_class w = true) /\
  Shakespeare.well_shaped w = true.
Proof.
  pose proof (C8_words_of_plain_pieces Unicode.ascii_only
                (u "In 1599: Don't say 'tis so' ") (u "don't")
                (or_intror (or_introl eq_refl))) as [H1 H2].
  split; [reflexivity|]. split; [|split; [exact H1|]].
  - intro P. apply (proj1 (Forall_forall _ _)) with (x := 49%N) in P.
    + discriminate (P eq_refl).
    + vm_compute. tauto.
  - apply (proj2 (H2 (u "in 1599: ") (u "don't say 'tis so'") []
                     eq_refl eq_refl)).
    + apply plain_forallb. reflexivity.
    + left. reflexivity.
Defined.

(* ================================================================== *)
(** * Part III: the rest of the two programs *)
(* ================================================================== *)

(** ** [most_common] *)

Section MostCommonFacts.
Import Charts.

Lemma insert_item_Permutation (x : str * Z) (l : list (str * Z)) :
  Permutation (insert_item x l) (x :: l).
Proof.
  induction l as [|y l IH]; simpl.
  - apply Permutation_refl.
  - destruct (snd x <? snd y)%Z.
    + rewrite IH. apply perm_swap.
    + apply Permutation_refl.
Qed.

Lemma sorted_items_Permutation (c : Counter.t) :
  Permutation (sorted_items c) c.
Proof.
  induction c as [|x c IH]; simpl.
  - constructor.
  - rewrite insert_item_Permutation. now constructor.
Qed.

(** Sorting the items sorts the counts as the rank-frequency builder
    does. *)
Lemma sorted_items_values (c : Counter.t) :
  map snd (sorted_items c) = sorted_reverse (Counter.values c).
Proof.
  assert (I : forall x l,
             map snd (insert_item x l) = insert_desc (snd x) (map snd l)).
  { intros x l. induction l as [|y l IH]; simpl; [reflexivity|].
    destruct (snd x <? snd y)%Z; simpl; [now rewrite IH | reflexivity]. }
  induction c as [|x c IH]; simpl; [reflexivity|].
  now rewrite I, IH.
Qed.

(** The sort is stable: the items of any given count stand as in the
    table. *)
Lemma sorted_items_stable (v : Z) (c : Counter.t) :
  filter (fun kv => (snd kv =? v)%Z) (sorted_items c)
  = filter (fun kv => (snd kv =? v)%Z) c.
Proof.
  assert (I : forall x l,
             filter (fun kv => (snd kv =? v)%Z) (insert_item x l)
             = filter (fun kv => (snd kv =? v)%Z) (x :: l)).
  { intros x l. induction l as [|y l IH]; [reflexivity|].
    cbn [insert_item]. destruct (snd x <? snd y)%Z eqn:E; [|reflexivity].
    apply Z.ltb_lt in E. cbn [filter] in *.
    destruct (snd y =? v)%Z eqn:Ey.
    - apply Z.eqb_eq in Ey.
      assert (Ex : (snd x =? v)%Z = false) by (apply Z.eqb_neq; lia).
      rewrite Ex in *. now rewrite IH.
    - exact IH. }
  induction c as [|x c IH]; [reflexivity|].
  cbn [sorted_items fold_right]. fold (sorted_items c).
  rewrite I. cbn [filter]. now rewrite IH.
Qed.

Lemma StronglySorted_app_between (A : Type) (R : A -> A -> Prop)
  (a b : list A) :
  StronglySorted R (a ++ b) ->
  forall x y, In x a -> In y b -> R x y.
Proof.
  induction a as [|z a IH]; simpl; intros H x y Hx Hy.
  - contradiction.
  - inversion H as [|? ? Hs Hf]; subst. destruct Hx as [<-|Hx].
    + rewrite Forall_forall in Hf. apply Hf, in_or_app. now right.
    + now apply IH.
Qed.

Lemma firstn_In (A : Type) (n : nat) (l : list A) (x : A) :
  In x (firstn n l) -> In x l.
Proof.
  intro H. rewrite <- (firstn_skipn n l). apply in_or_app. now left.
Qed.

Lemma firstn_non_increasing (n : nat) (l : list Z) :
  non_increasing l -> non_increasing (firstn n l).
Proof.
  unfold non_increasing. revert l.
  induction n as [|n IH]; intros l H; simpl.
  - constructor.
  - destruct l as [|x l]; [constructor|].
    inversion H as [|? ? Hs Hf]; subst. constructor.
    + now apply IH.
    + rewrite Forall_forall in *. intros y Hy.
      apply Hf. eapply firstn_In; eauto.
Qed.

(** X1. [most_common(n)] returns [min(n, N)] items of a table of [N]
    units; their counts are the first [n] frequencies of the
    rank-frequency series of the table, so they do not increase. The bar
    chart of [Chinese.py] thus gets as many heights as labels, and as
    many as its fifty positions exactly when the table has at least
    fifty units. *)
Theorem X1_most_common_length_and_counts (n : Z) (c : Counter.t) :
  length (most_common n c) = Nat.min (Z.to_nat n) (length c) /\
  map snd (most_common n c) = firstn (Z.to_nat n) (snd (Chinese.zipf c)) /\
  non_increasing (map snd (most_common n c)) /\
  (let b := bar_of (most_common 50 c) in
   length (heights b) = length (tick_label b) /\
   (length (heights b) = length (positions b) <-> (50 <= length c)%nat)).
Proof.
  assert (L : length (sorted_items c) = length c)
    by apply Permutation_length, sorted_items_Permutation.
  assert (V : map snd (most_common n c)
              = firstn (Z.to_nat n) (sorted_reverse (Counter.values c))).
  { unfold most_common. now rewrite <- sorted_items_values, firstn_map. }
  split; [|split; [|split]].
  - unfold most_common. now rewrite length_firstn, L.
  - exact V.
  - rewrite V. apply firstn_non_increasing, sorted_reverse_non_increasing.
  - unfold bar_of, range. cbn [heights tick_label positions].
    rewrite !length_map, length_seq. split; [reflexivity|].
    unfold most_common. rewrite length_firstn, L.
    change (Z.to_nat 50) with 50%nat. lia.
Qed.

(** X2. The items [most_common(n)] returns are items of the table, each
    once, and no item it leaves out has a larger count than one it
    returns. *)
Theorem X2_most_common_takes_the_largest (n : Z) (c : Counter.t) :
  exists rest : list (str * Z),
    Permutation (most_common n c ++ rest) c /\
    forall x y, In x (most_common n c) -> In y rest ->
                (snd y <= snd x)%Z.
Proof.
  exists (skipn (Z.to_nat n) (sorted_items c)). split.
  - unfold most_common. rewrite firstn_skipn.
    apply sorted_items_Permutation.
  - intros x y Hx Hy.
    assert (S : StronglySorted (fun a b => (b <= a)%Z)
                  (map snd (most_common n c)
                   ++ map snd (skipn (Z.to_nat n) (sorted_items c)))).
    { unfold most_common. rewrite <- map_app, firstn_skipn.
      rewrite sorted_items_values. apply sorted_reverse_non_increasing. }
    apply (StronglySorted_app_between _ _ _ _ S).
    + now apply in_map.
    + now apply in_map.
Qed.

Lemma filter_firstn_prefix (A : Type) (f : A -> bool) (n : nat)
  (l : list A) :
  exists m, filter f (firstn n l) = firstn m (filter f l).
Proof.
  revert l. induction n as [|n IH]; intro l.
  - exists 0%nat. reflexivity.
  - destruct l as [|x l]; [exists 0%nat; reflexivity|].
    destruct (IH l) as [m Hm]. simpl. destruct (f x).
    + exists (S m). simpl. now rewrite Hm.
    + exists m. exact Hm.
Qed.

(** X3. Ties are broken by the order of the table: among the items
    [most_common(n)] returns, those of any given count are the first of
    that count in the table, in the order in which the table holds them;
    with [n] at least the size of the table, all of them. *)
Theorem X3_most_common_ties_in_table_order (n v : Z) (c : Counter.t) :
  (exists m,
     filter (fun kv => (snd kv =? v)%Z) (most_common n c)
     = firstn m (filter (fun kv => (snd kv =? v)%Z) c)) /\
  (Counter.size c <= n ->
   filter (fun kv => (snd kv =? v)%Z) (most_common n c)
   = filter (fun kv => (snd kv =? v)%Z) c)%Z.
Proof.
  split.
  - unfold most_common.
    destruct (filter_firstn_prefix _ (fun kv => (snd kv =? v)%Z)
                (Z.to_nat n) (sorted_items c)) as [m Hm].
    exists m. now rewrite Hm, sorted_items_stable.
  - intro H. unfold most_common. rewrite firstn_all2.
    + apply sorted_items_stable.
    + rewrite (Permutation_length (sorted_items_Permutation c)).
      unfold Counter.size, len in H. lia.
Qed.

End MostCommonFacts.

(** ** What the tables of a run hold *)

Section TableContents.
Import Units.
Variable lcut : str -> list str.
Variable U : Unicode.table.

Lemma count_occ_chars_of (s : str) (c : N) :
  count_occ str_eq_dec (chars_of s) [c] = count_occ N.eq_dec s c.
Proof.
  induction s as [|x s IH]; simpl; [reflexivity|].
  destruct (str_eq_dec [x] [c]) as [E|E], (N.eq_dec x c) as [E'|E'].
  - now rewrite IH.
  - inversion E. contradiction.
  - subst. contradiction.
  - exact IH.
Qed.

Lemma count_occ_filter (f : N -> bool) (s : str) (c : N) :
  count_occ N.eq_dec (filter f s) c
  = if f c then count_occ N.eq_dec s c else 0%nat.
Proof.
  induction s as [|x s IH]; simpl.
  - now destruct (f c).
  - destruct (f x) eqn:Fx; simpl.
    + destruct (N.eq_dec x c) as [->|Ne].
      * rewrite IH, Fx. reflexivity.
      * exact IH.
    + destruct (N.eq_dec x c) as [->|Ne].
      * rewrite IH, Fx. reflexivity.
      * exact IH.
Qed.

Lemma char_units_filter (text : str) :
  Chinese.char_units text = chars_of (filter counted text).
Proof.
  unfold Chinese.char_units, Chinese.clean, remove_char, counted.
  f_equal. induction text as [|x t IH]; simpl; [reflexivity|].
  destruct (Chinese.kept x); simpl; [|exact IH].
  destruct (x =? Chinese.full_stop)%N; simpl; [exact IH | now rewrite IH].
Qed.

Lemma char_units_concat (blocks : list str) :
  flat_map Chinese.char_units blocks
  = chars_of (filter counted (concat blocks)).
Proof.
  induction blocks as [|b blocks IH]; simpl; [reflexivity|].
  rewrite IH, char_units_filter, filter_app. unfold chars_of.
  now rewrite map_app.
Qed.

(** X4. After a run of [Chinese.py] the count of a character is the number
    of its occurrences in the corpus, if it is a character of the class
    other than the terminator, and zero otherwise; [total_chars] is the
    number of such characters in the corpus. *)
Theorem X4_chinese_char_counts_are_occurrences (blocks : list str) (c : N) :
  let p := Chinese.run lcut blocks in
  Counter.get (Chinese.char_counter p) [c]
  = (if counted c
     then Z.of_nat (count_occ N.eq_dec (concat blocks) c) else 0%Z) /\
  Chinese.total_chars p = len (filter counted (concat blocks)).
Proof.
  unfold Chinese.run. rewrite chinese_feed_eq. simpl.
  rewrite get_update, char_units_concat, count_occ_chars_of,
    count_occ_filter. simpl. split.
  - now destruct (counted c).
  - unfold len, chars_of. now rewrite length_map.
Qed.

Lemma counted_han (c : N) : counted c = true -> han c.
Proof.
  unfold counted, Chinese.kept, han. intro H.
  apply andb_prop in H. destruct H as [H1 H2].
  apply negb_true_iff in H2. rewrite H2, orb_false_r in H1.
  apply andb_prop in H1. destruct H1 as [A B].
  apply N.leb_le in A. apply N.leb_le in B. lia.
Qed.

(** The fragments of a split hold characters of the text other than the
    separator. *)
Lemma split_fragments (sep : N) (s f : str) :
  In f (split sep s) -> Forall (fun c => In c s /\ c <> sep) f.
Proof.
  revert f. induction s as [|c r IH]; simpl; intros f H.
  - destruct H as [<-|[]]. constructor.
  - destruct (c =? sep)%N eqn:E.
    + destruct H as [<-|H]; [constructor|].
      eapply Forall_impl; [|exact (IH f H)]. simpl. tauto.
    + apply N.eqb_neq in E.
      pose proof (split_not_nil sep r) as Hne.
      destruct (split sep r) as [|g gs]; [congruence|].
      destruct H as [<-|H].
      * constructor; [split; [now left | exact E]|].
        eapply Forall_impl; [|exact (IH g (or_introl eq_refl))].
        simpl. tauto.
      * eapply Forall_impl; [|exact (IH f (or_intror H))]. simpl. tauto.
Qed.

Lemma sentence_units_han (text s : str) :
  In s (Chinese.sentence_units text) -> s <> [] /\ Forall han s.
Proof.
  intro H. split; [exact (sentence_units_truthy text s H)|].
  unfold Chinese.sentence_units, Chinese.sentences_of in H.
  apply filter_In in H. destruct H as [H _].
  apply split_fragments in H.
  eapply Forall_impl; [|exact H]. intros c [Hc Hs].
  apply counted_han. unfold counted.
  unfold Chinese.clean in Hc. apply filter_In in Hc. destruct Hc as [_ Hk].
  rewrite Hk. simpl. apply negb_true_iff. now apply N.eqb_neq.
Qed.

Lemma alphabet_In (lo n c : N) :
  (lo <= c < lo + n)%N -> In [c] (alphabet lo n).
Proof.
  intro H. unfold alphabet. apply in_map_iff.
  exists (N.to_nat (c - lo)). split.
  - f_equal. lia.
  - apply in_seq. lia.
Qed.

(** A well-formed table whose keys are letters of an alphabet has no more
    entries than the alphabet has letters. *)
Lemma size_le_alphabet (c : Counter.t) (lo n : N) :
  Counter.well_formed c ->
  (forall k, In k (Counter.keys c) -> In k (alphabet lo n)) ->
  (Counter.size c <= Z.of_N n)%Z.
Proof.
  intros [Hk _] Hin.
  pose proof (NoDup_incl_length Hk Hin) as L.
  unfold alphabet in L. rewrite length_map, length_seq in L.
  unfold Counter.keys in L. rewrite length_map in L.
  unfold Counter.size, len. lia.
Qed.

Lemma chinese_char_keys (blocks : list str) (k : str) :
  In k (Counter.keys (Chinese.char_counter (Chinese.run lcut blocks))) ->
  exists c, k = [c] /\ han c.
Proof.
  unfold Chinese.run. rewrite chinese_feed_eq. simpl.
  intro Hk. apply keys_update in Hk. destruct Hk as [Hk|[]].
  rewrite char_units_concat in Hk. unfold chars_of in Hk.
  apply in_map_iff in Hk. destruct Hk as [c [<- Hc]].
  apply filter_In in Hc. exists c. split; [reflexivity|].
  now apply counted_han.
Qed.

Lemma chinese_char_size (blocks : list str) :
  (Counter.size (Chinese.char_counter (Chinese.run lcut blocks))
   <= 20902)%Z.
Proof.
  apply (size_le_alphabet _ 0x4e00%N 20902%N).
  - apply (pipeline_tables_well_formed lcut Unicode.ascii_only blocks).
  - intros k Hk. destruct (chinese_char_keys blocks k Hk) as [c [-> Hc]].
    apply alphabet_In. unfold han in Hc. lia.
Qed.

(** X5. After a run of [Chinese.py] every key of the character table is a
    single character from U+4E00 to U+9FA5, so the table has at most
    20902 entries; and every key of the sentence table is a non-empty
    string of such characters, with no terminator in it. *)
Theorem X5_chinese_keys (blocks : list str) :
  let p := Chinese.run lcut blocks in
  (forall k, In k (Counter.keys (Chinese.char_counter p)) ->
             exists c, k = [c] /\ han c) /\
  (Counter.size (Chinese.char_counter p) <= 20902)%Z /\
  (forall s, In s (Counter.keys (Chinese.sentence_counter p)) ->
             s <> [] /\ Forall han s).
Proof.
  split; [exact (chinese_char_keys blocks) | split].
  - exact (chinese_char_size blocks).
  - unfold Chinese.run. rewrite chinese_feed_eq. simpl.
    intros s Hs. apply keys_update in Hs. destruct Hs as [Hs|[]].
    apply in_flat_map in Hs. destruct Hs as [text [_ Hs]].
    exact (sentence_units_han text s Hs).
Qed.

(** *** [SHAKESPEARE.py] *)

Lemma space_not_az (c : N) :
  Unicode.is_space U c = true -> Shakespeare.is_az c = false.
Proof.
  unfold Unicode.is_space, Shakespeare.is_az, Unicode.ascii_space,
    Unicode.between.
  destruct (c <? 128)%N eqn:E.
  - intro H. apply orb_prop in H.
    apply andb_false_iff.
    destruct H as [H|H]; apply andb_prop in H; destruct H as [A B];
      apply N.leb_le in A; apply N.leb_le in B;
      left; apply N.leb_gt; lia.
  - intros _. apply N.ltb_ge in E. apply andb_false_iff.
    right. apply N.leb_gt. lia.
Qed.

Lemma filter_az_lstrip (s : str) :
  filter Shakespeare.is_az (Unicode.lstrip U s)
  = filter Shakespeare.is_az s.
Proof.
  induction s as [|c r IH]; simpl; [reflexivity|].
  destruct (Unicode.is_space U c) eqn:E; [|reflexivity].
  now rewrite (space_not_az c E).
Qed.

Lemma filter_rev (A : Type) (f : A -> bool) (l : list A) :
  filter f (rev l) = rev (filter f l).
Proof.
  induction l as [|x l IH]; simpl; [reflexivity|].
  rewrite filter_app, IH. simpl. destruct (f x); simpl.
  - reflexivity.
  - now rewrite app_nil_r.
Qed.

(** Stripping removes no letter. *)
Lemma filter_az_strip (s : str) :
  filter Shakespeare.is_az (Unicode.strip U s)
  = filter Shakespeare.is_az s.
Proof.
  unfold Unicode.strip, Unicode.rstrip.
  rewrite filter_rev, filter_az_lstrip, filter_rev, rev_involutive.
  apply filter_az_lstrip.
Qed.

Lemma shakespeare_char_units_filter (text : str) :
  Shakespeare.char_units U text
  = chars_of (filter Shakespeare.is_az (Unicode.lower U text)).
Proof.
  unfold Shakespeare.char_units, Shakespeare.findall_az,
    Shakespeare._clean_text.
  now rewrite filter_az_strip.
Qed.

Lemma shakespeare_char_keys (texts : list str) (k : str) :
  In k (Counter.keys (Shakespeare.char_stats (Shakespeare.run U texts))) ->
  exists c, k = [c] /\ Shakespeare.is_az c = true.
Proof.
  unfold Shakespeare.run. rewrite shakespeare_feed_eq. simpl.
  intro Hk. apply keys_update in Hk. destruct Hk as [Hk|[]].
  apply in_flat_map in Hk. destruct Hk as [text [_ Hk]].
  rewrite shakespeare_char_units_filter in Hk. unfold chars_of in Hk.
  apply in_map_iff in Hk. destruct Hk as [c [<- Hc]].
  apply filter_In in Hc. exists c. split; [reflexivity | apply Hc].
Qed.

Lemma shakespeare_char_size (texts : list str) :
  (Counter.size (Shakespeare.char_stats (Shakespeare.run U texts))
   <= 26)%Z.
Proof.
  apply (size_le_alphabet _ 97%N 26%N).
  - apply (pipeline_tables_well_formed Chinese.lcut_chars U texts).
  - intros k Hk. destruct (shakespeare_char_keys texts k Hk) as [c [-> Hc]].
    apply alphabet_In. unfold Shakespeare.is_az, Unicode.between in Hc.
    apply andb_prop in Hc. destruct Hc as [A B].
    apply N.leb_le in A. apply N.leb_le in B. lia.
Qed.

(** X6. After a run of [SHAKESPEARE.py] every key of the character table
    is a single letter from [a] to [z]: the table has at most 26 entries,
    and so has its rank-frequency series. *)
Theorem X6_shakespeare_char_keys (texts : list str) :
  let a := Shakespeare.run U texts in
  (forall k, In k (Counter.keys (Shakespeare.char_stats a)) ->
             exists c, k = [c] /\ Shakespeare.is_az c = true) /\
  (Counter.size (Shakespeare.char_stats a) <= 26)%Z /\
  (length (snd (Shakespeare.zipf (Shakespeare.char_stats a))) <= 26)%nat.
Proof.
  pose proof (shakespeare_char_size texts) as S.
  split; [exact (shakespeare_char_keys texts) | split; [exact S|]].
  destruct (zipf_spec (Shakespeare.char_stats (Shakespeare.run U texts)))
    as [_ [L [_ [_ E]]]].
  rewrite E. unfold len, Counter.size in *. lia.
Qed.

(** On a text of ASCII characters [lower] maps character by character. *)
Lemma lower_ascii (s : str) :
  ascii_text s -> Unicode.lower U s = map Unicode.ascii_lower s.
Proof.
  unfold Unicode.lower. generalize (@nil N) as before.
  induction s as [|c r IH]; intros before H; simpl; [reflexivity|].
  inversion H as [|? ? Hc Hr]; subst. unfold ascii in Hc.
  apply N.ltb_lt in Hc. rewrite Hc. simpl. f_equal. now apply IH.
Qed.

(** The letters [lower] turns into the letter [c]: [c] itself and its
    upper case. *)
Lemma ascii_lower_is (c x : N) :
  Shakespeare.is_az c = true ->
  (Unicode.ascii_lower x = c <-> x = c \/ x = (c - 32)%N).
Proof.
  unfold Shakespeare.is_az, Unicode.ascii_lower, Unicode.between.
  intro H. apply andb_prop in H. destruct H as [A B].
  apply N.leb_le in A. apply N.leb_le in B.
  destruct ((65 <=? x)%N && (x <=? 90)%N) eqn:E.
  - apply andb_prop in E. destruct E as [E1 E2].
    apply N.leb_le in E1. apply N.leb_le in E2. lia.
  - apply andb_false_iff in E. destruct E as [E|E];
      apply N.leb_gt in E; lia.
Qed.

Lemma count_occ_lower (s : str) (c : N) :
  Shakespeare.is_az c = true ->
  count_occ N.eq_dec (map Unicode.ascii_lower s) c
  = (count_occ N.eq_dec s c + count_occ N.eq_dec s (c - 32)%N)%nat.
Proof.
  intro Hc. pose proof Hc as Hr.
  unfold Shakespeare.is_az, Unicode.between in Hr.
  apply andb_prop in Hr. destruct Hr as [A B].
  apply N.leb_le in A. apply N.leb_le in B.
  induction s as [|x s IH]; simpl; [reflexivity|].
  pose proof (ascii_lower_is c x Hc) as L.
  destruct (N.eq_dec (Unicode.ascii_lower x) c) as [E|E],
           (N.eq_dec x c) as [E1|E1], (N.eq_dec x (c - 32)%N) as [E2|E2];
    try lia; try (exfalso; tauto).
Qed.

(** X7. On a corpus of ASCII texts [SHAKESPEARE.py] counts the two cases
    of a letter together: the count of a letter from [a] to [z] is the
    number of its occurrences in the corpus, in lower or upper case, and
    [counts['chars']] is the number of ASCII letters of the corpus. *)
Theorem X7_shakespeare_counts_fold_case (texts : list str) (c : N) :
  Forall ascii_text texts ->
  Shakespeare.is_az c = true ->
  let a := Shakespeare.run U texts in
  Counter.get (Shakespeare.char_stats a) [c]
  = Z.of_nat (count_occ N.eq_dec (concat texts) c
              + count_occ N.eq_dec (concat texts) (c - 32)%N) /\
  Shakespeare.chars (Shakespeare.counts a)
  = len (filter is_letter (concat texts)).
Proof.
  intros Ha Hc.
  assert (E : flat_map (Shakespeare.char_units U) texts
              = chars_of (filter Shakespeare.is_az
                            (map Unicode.ascii_lower (concat texts)))).
  { induction Ha as [|t ts Ht _ IH]; simpl; [reflexivity|].
    rewrite IH, shakespeare_char_units_filter, (lower_ascii t Ht).
    rewrite map_app, filter_app. unfold chars_of. now rewrite map_app. }
  unfold Shakespeare.run. rewrite shakespeare_feed_eq. simpl.
  rewrite get_update, E, count_occ_chars_of, count_occ_filter, Hc.
  rewrite (count_occ_lower _ c Hc). simpl. split; [reflexivity|].
  unfold len, chars_of. rewrite length_map. apply f_equal.
  clear. induction (concat texts) as [|x s IH]; simpl; [reflexivity|].
  assert (X : Shakespeare.is_az (Unicode.ascii_lower x) = is_letter x).
  { unfold Shakespeare.is_az, Unicode.ascii_lower, is_letter,
      Unicode.between.
    destruct ((65 <=? x)%N && (x <=? 90)%N) eqn:E1; simpl.
    - apply andb_prop in E1. destruct E1 as [A B].
      apply N.leb_le in A. apply N.leb_le in B.
      apply andb_true_iff. split; apply N.leb_le; lia.
    - reflexivity. }
  rewrite X. destruct (is_letter x); simpl; now rewrite IH.
Qed.

(** *** Accumulation only adds *)

Lemma update_grown (c : Counter.t) (xs : list str) :
  grown c (Counter.update c xs).
Proof.
  split.
  - intro k. rewrite get_update. lia.
  - intros k Hk. apply keys_update. now right.
Qed.

Lemma len_nonneg (A : Type) (xs : list A) : (0 <= len xs)%Z.
Proof. unfold len. lia. Qed.

(** X8. Accumulation only adds, from any state of either program: after
    any further blocks no count of any table is smaller, no key is lost
    and no total is smaller; in [SHAKESPEARE.py] the number of files grows
    by exactly the number of texts processed. *)
Theorem X8_accumulation_only_adds
  (p : Chinese.ProcessingPipeline) (a : Shakespeare.LinguisticAnalyzer)
  (blocks : list str) :
  let p' := Chinese.feed lcut p blocks in
  let a' := Shakespeare.feed U a blocks in
  (grown (Chinese.char_counter p) (Chinese.char_counter p') /\
   grown (Chinese.word_counter p) (Chinese.word_counter p') /\
   grown (Chinese.sentence_counter p) (Chinese.sentence_counter p') /\
   (Chinese.total_chars p <= Chinese.total_chars p')%Z /\
   (Chinese.total_words p <= Chinese.total_words p')%Z /\
   (Chinese.total_sentences p <= Chinese.total_sentences p')%Z) /\
  (grown (Shakespeare.char_stats a) (Shakespeare.char_stats a') /\
   grown (Shakespeare.word_stats a) (Shakespeare.word_stats a') /\
   (Shakespeare.chars (Shakespeare.counts a)
    <= Shakespeare.chars (Shakespeare.counts a'))%Z /\
   (Shakespeare.words (Shakespeare.counts a)
    <= Shakespeare.words (Shakespeare.counts a'))%Z /\
   Shakespeare.files (Shakespeare.counts a')
   = (Shakespeare.files (Shakespeare.counts a) + len blocks)%Z).
Proof.
  rewrite chinese_feed_eq, shakespeare_feed_eq. simpl.
  pose proof (fun A => len_nonneg A) as L.
  repeat match goal with
         | |- _ /\ _ => split
         | |- grown _ _ => apply update_grown
         | |- (_ <= _ + len ?x)%Z => pose proof (L _ x); lia
         end.
  reflexivity.
Qed.

(** A split has one fragment more than the text has separators. *)
Lemma split_length (sep : N) (s : str) :
  length (split sep s) = S (count_occ N.eq_dec s sep).
Proof.
  induction s as [|c r IH]; simpl; [reflexivity|].
  destruct (N.eq_dec c sep) as [->|Ne].
  - rewrite N.eqb_refl. simpl. now rewrite IH.
  - apply N.eqb_neq in Ne. rewrite Ne.
    pose proof (split_not_nil sep r) as Hne.
    destruct (split sep r); [congruence|]. exact IH.
Qed.

Lemma len_le_sum_lengths (xs : list str) :
  Forall (fun s => s <> []) xs -> (len xs <= sum (map (@len N) xs))%Z.
Proof.
  induction 1 as [|s xs Hs _ IH]; [reflexivity|].
  rewrite len_cons. cbn [map]. rewrite sum_cons.
  destruct s as [|c s]; [congruence|].
  rewrite len_cons. pose proof (len_nonneg _ s). lia.
Qed.

(** X9. In [Chinese.py] a block adds at most one sentence more than it has
    terminators, and after any run there are at most as many sentences as
    characters, every sentence holding at least one. *)
Theorem X9_sentences_are_few (blocks : list str) (text : str) :
  (length (Chinese.sentence_units text)
   <= S (count_occ N.eq_dec text Chinese.full_stop))%nat /\
  (Chinese.total_sentences (Chinese.run lcut blocks)
   <= Chinese.total_chars (Chinese.run lcut blocks))%Z.
Proof.
  split.
  - unfold Chinese.sentence_units, Chinese.sentences_of.
    eapply Nat.le_trans; [apply filter_length_le|].
    rewrite split_length. apply le_n_S.
    unfold Chinese.clean. rewrite count_occ_filter.
    destruct (Chinese.kept Chinese.full_stop); lia.
  - unfold Chinese.run. rewrite chinese_feed_eq. simpl.
    rewrite <- sentence_units_lengths_all.
    apply len_le_sum_lengths. apply Forall_forall. intros s Hs.
    apply in_flat_map in Hs. destruct Hs as [t [_ Hs]].
    exact (sentence_units_truthy t s Hs).
Qed.

End TableContents.

(** ** The entropies of a run *)

Section ReportFacts.
Import PyFloat.
Local Open Scope R_scope.

(** A table filled from the empty one, with the total kept beside it. *)
Lemma filled_table (xs : list str) :
  let c := Counter.update Counter.empty xs in
  Forall (fun v => (1 <= v)%Z) (Counter.values c) /\
  len xs = sum (Counter.values c) /\ (0 <= len xs)%Z.
Proof.
  simpl. split; [|split].
  - apply (well_formed_update Counter.empty xs well_formed_empty).
  - rewrite sum_values_update. simpl. lia.
  - unfold len. lia.
Qed.

Lemma observed_nonneg (vs : list Z) :
  Forall (fun v => (1 <= v)%Z) vs -> Forall (fun v => (0 <= v)%Z) vs.
Proof. apply Forall_impl. intros; lia. Qed.

(** The entropy function on a filled table, with any positive smoothing
    parameter, in exact arithmetic. *)
Lemma entropy_of_filled (xs : list str) (alpha : R) :
  0 < alpha ->
  let c := Counter.update Counter.empty xs in
  Chinese.calculate_entropy c (len xs) alpha
  = Ok (EntropySpec.entropy c (len xs) alpha).
Proof.
  intros Ha c. destruct (filled_table xs) as [Hv [Hs Hl]]. fold c in Hv, Hs.
  pose proof (observed_nonneg _ Hv) as H0.
  now apply entropy_is_smoothed_sum.
Qed.

Lemma smoothing_pos : 0 < Shakespeare.smoothing.
Proof. apply literal_pos. lia. Qed.

End ReportFacts.

(** ** Merging blank lines in [ShakespeareLoader] *)

Section NewlineFacts.
Import Loader.

Lemma sub_newlines_skip (s : str) :
  forall k, (k <= newline_run s)%nat ->
    sub_newlines_from k s = sub_newlines_from 0 (skipn k s).
Proof.
  induction s as [|c r IH]; intros k Hk.
  - now destruct k.
  - destruct k as [|k]; [reflexivity|].
    cbn [sub_newlines_from skipn]. apply IH.
    cbn [newline_run] in Hk. destruct (c =? newline)%N; lia.
Qed.

(** At a newline: one newline is written and the run is passed. *)
Lemma sub_newlines_at_newline (r : str) :
  sub_newlines_from 0 (newline :: r)
  = newline :: sub_newlines_from 0 (skipn (newline_run r) r).
Proof.
  cbn [sub_newlines_from newline_run]. rewrite N.eqb_refl.
  destruct (newline_run r) as [|n] eqn:E.
  - reflexivity.
  - cbn [Nat.leb]. f_equal.
    replace (S (S n) - 1)%nat with (S n) by lia.
    apply sub_newlines_skip. lia.
Qed.

Lemma sub_newlines_at_other (c : N) (r : str) :
  c <> newline ->
  sub_newlines_from 0 (c :: r) = c :: sub_newlines_from 0 r.
Proof.
  intro H. apply N.eqb_neq in H.
  cbn [sub_newlines_from newline_run]. now rewrite H.
Qed.

Lemma newline_run_skipn (r : str) :
  newline_run (skipn (newline_run r) r) = 0%nat.
Proof.
  induction r as [|c r IH]; [reflexivity|].
  cbn [newline_run]. destruct (c =? newline)%N eqn:E.
  - exact IH.
  - cbn [skipn newline_run]. now rewrite E.
Qed.

Lemma remove_newline_skipn (r : str) :
  remove_char newline (skipn (newline_run r) r) = remove_char newline r.
Proof.
  induction r as [|c r IH]; [reflexivity|].
  cbn [newline_run]. destruct (c =? newline)%N eqn:E.
  - cbn [skipn]. unfold remove_char in *. cbn [filter].
    rewrite E. exact IH.
  - reflexivity.
Qed.

Lemma has_blank_cons (c : N) (t : str) :
  newline_run t = 0%nat -> has_blank (c :: t) = has_blank t.
Proof.
  intro H. cbn [has_blank]. destruct t as [|d t'].
  - now rewrite andb_false_r.
  - cbn [newline_run] in H. destruct (d =? newline)%N; [discriminate|].
    now rewrite andb_false_r.
Qed.

(** What the scan does, by the length of the text. *)
Lemma sub_newlines_spec (n : nat) :
  forall s, (length s <= n)%nat ->
    has_blank (sub_newlines_from 0 s) = false /\
    (newline_run s = 0%nat -> newline_run (sub_newlines_from 0 s) = 0%nat) /\
    remove_char newline (sub_newlines_from 0 s) = remove_char newline s /\
    (length (sub_newlines_from 0 s) <= length s)%nat.
Proof.
  induction n as [|n IH]; intros s Hn.
  - destruct s; [|simpl in Hn; lia]. repeat split; reflexivity.
  - destruct s as [|c r]; [repeat split; reflexivity|].
    simpl in Hn. destruct (N.eq_dec c newline) as [->|Hc].
    + rewrite sub_newlines_at_newline.
      assert (L : (length (skipn (newline_run r) r) <= length r)%nat)
        by (rewrite length_skipn; lia).
      destruct (IH (skipn (newline_run r) r) ltac:(lia))
        as [H1 [H2 [H3 H4]]].
      specialize (H2 (newline_run_skipn r)).
      repeat split.
      * now rewrite has_blank_cons.
      * cbn [newline_run]. rewrite N.eqb_refl. discriminate.
      * unfold remove_char in *. cbn [filter]. rewrite N.eqb_refl.
        cbn [negb]. rewrite H3. apply remove_newline_skipn.
      * simpl length. lia.
    + rewrite (sub_newlines_at_other c r Hc).
      destruct (IH r ltac:(lia)) as [H1 [H2 [H3 H4]]].
      apply N.eqb_neq in Hc.
      repeat split.
      * cbn [has_blank]. rewrite Hc. exact H1.
      * intros _. cbn [newline_run]. now rewrite Hc.
      * unfold remove_char in *. cbn [filter]. rewrite Hc.
        cbn [negb]. now rewrite H3.
      * simpl length. lia.
Qed.

(** A text without a blank line goes through unchanged. *)
Lemma sub_newlines_fixed (s : str) :
  has_blank s = false -> sub_newlines_from 0 s = s.
Proof.
  induction s as [|c r IH]; [reflexivity|].
  cbn [has_blank]. intro H. apply orb_false_iff in H.
  destruct H as [H1 H2].
  destruct (N.eq_dec c newline) as [->|Hc].
  - rewrite N.eqb_refl in H1. cbn [andb] in H1.
    rewrite sub_newlines_at_newline.
    assert (R : newline_run r = 0%nat).
    { destruct r as [|d r']; [reflexivity|].
      cbn [newline_run]. now rewrite H1. }
    rewrite R. cbn [skipn]. f_equal. now apply IH.
  - rewrite (sub_newlines_at_other c r Hc). f_equal. now apply IH.
Qed.

(** X16. [re.sub(r'\n{2,}', '\n', text)] leaves no blank line (no two
    newlines in a row), keeps every other character in its place among
    the others, never lengthens the text, returns a text without blank
    lines as it is, and so changes nothing when applied twice. *)
Theorem X16_blank_lines_are_merged (text : str) :
  has_blank (sub_newlines text) = false /\
  remove_char newline (sub_newlines text) = remove_char newline text /\
  (length (sub_newlines text) <= length text)%nat /\
  (has_blank text = false -> sub_newlines text = text) /\
  sub_newlines (sub_newlines text) = sub_newlines text.
Proof.
  unfold sub_newlines.
  destruct (sub_newlines_spec (length text) text (le_n _))
    as [H1 [_ [H3 H4]]].
  repeat split; try assumption.
  - apply sub_newlines_fixed.
  - now apply sub_newlines_fixed.
Qed.

End NewlineFacts.

(** ** More on word extraction *)

Section WordsMore.
Import Shakespeare Units.
Variable U : Unicode.table.

(** X17. A word never spans a character that is neither of the class
    [[a-z']] nor a word character (a blank, a punctuation mark): the words
    of a text are those of the part before such a character, followed by
    those of the part after it. *)
Theorem X17_words_do_not_span_inert (a t : str) (x : N) :
  inert U x = true ->
  findall_words U (a ++ x :: t) = findall_words U a ++ findall_words U t.
Proof.
  intro H. unfold findall_words. apply findall_split; [exact H | lia].
Qed.

(** *** [strip] changes no statistics *)

Lemma ascii_space_inert (c : N) :
  (c < 128)%N -> Unicode.is_space U c = true -> inert U c = true.
Proof.
  intro Hc.
  unfold inert, in_class, is_az, apostrophe, Unicode.is_space,
    Unicode.is_word, Unicode.ascii_space, Unicode.ascii_word,
    Unicode.between.
  apply N.ltb_lt in Hc. rewrite Hc. apply N.ltb_lt in Hc.
  repeat match goal with
         | |- context [(?a <=? ?b)%N] =>
             destruct (N.leb_spec a b); try lia
         | |- context [(?a =? ?b)%N] =>
             destruct (N.eqb_spec a b); try lia
         end;
    simpl; intro; try reflexivity; discriminate.
Qed.

Lemma space_inert (c : N) :
  (forall x, Unicode.isspace U x = true -> Unicode.isword U x = false) ->
  Unicode.is_space U c = true -> inert U c = true.
Proof.
  intros H Hs. destruct (N.ltb_spec c 128) as [L|L].
  - now apply ascii_space_inert.
  - assert (E : (c <? 128)%N = false) by (apply N.ltb_ge; lia).
    unfold Unicode.is_space in Hs. rewrite E in Hs.
    unfold inert, in_class, is_az, apostrophe, Unicode.is_word,
      Unicode.between.
    rewrite E, (H c Hs).
    assert (E1 : (c <=? 122)%N = false) by (apply N.leb_gt; lia).
    assert (E2 : (c =? 39)%N = false) by (apply N.eqb_neq; lia).
    rewrite E1, E2. now rewrite andb_false_r.
Qed.

Lemma findall_lstrip (s : str) :
  Forall (fun c => Unicode.is_space U c = true -> inert U c = true) s ->
  findall_from U 0 None (Unicode.lstrip U s) = findall_from U 0 None s.
Proof.
  induction 1 as [|c r Hc _ IH]; [reflexivity|].
  cbn [Unicode.lstrip]. destruct (Unicode.is_space U c) eqn:E;
    [|reflexivity].
  rewrite IH. symmetry. apply findall_inert_head. now apply Hc.
Qed.

Lemma lstrip_suffix (s : str) :
  exists ws, s = ws ++ Unicode.lstrip U s /\
             Forall (fun c => Unicode.is_space U c = true) ws.
Proof.
  induction s as [|c r IH]; [exists []; split; [reflexivity|constructor]|].
  cbn [Unicode.lstrip]. destruct (Unicode.is_space U c) eqn:E.
  - destruct IH as [ws [Hw Fw]]. exists (c :: ws). split.
    + simpl. f_equal. exact Hw.
    + now constructor.
  - exists []. split; [reflexivity | constructor].
Qed.

Lemma Forall_lstrip (P : N -> Prop) (s : str) :
  Forall P s -> Forall P (Unicode.lstrip U s).
Proof.
  induction 1 as [|c r Hc Hr IH]; [constructor|].
  cbn [Unicode.lstrip]. destruct (Unicode.is_space U c);
    [exact IH | now constructor].
Qed.

Lemma findall_rstrip (s : str) :
  Forall (fun c => Unicode.is_space U c = true -> inert U c = true) s ->
  forall skip prev,
    findall_from U skip prev (Unicode.rstrip U s)
    = findall_from U skip prev s.
Proof.
  intros H skip prev. unfold Unicode.rstrip.
  destruct (lstrip_suffix (rev s)) as [ws [E F]].
  assert (S : rev (Unicode.lstrip U (rev s)) ++ rev ws = s).
  { rewrite <- rev_app_distr, <- E. apply rev_involutive. }
  transitivity (findall_from U skip prev
                  (rev (Unicode.lstrip U (rev s)) ++ rev ws));
    [|now rewrite S].
  symmetry. apply findall_inert_suffix. apply forallb_forall.
  intros x Hx. apply in_rev in Hx.
  rewrite Forall_forall in H, F. apply H; [|now apply F].
  apply in_rev. rewrite E. apply in_or_app. now left.
Qed.

(** Where the blanks of a text are inert, [strip] removes no word. *)
Lemma findall_strip (s : str) :
  Forall (fun c => Unicode.is_space U c = true -> inert U c = true) s ->
  findall_words U (Unicode.strip U s) = findall_words U s.
Proof.
  intro H. unfold findall_words, Unicode.strip.
  rewrite findall_rstrip by now apply Forall_lstrip.
  now apply findall_lstrip.
Qed.

(** X18. Stripping the text changes no statistics: the letters counted are
    those of the lower-cased text, and so are the words, as long as no
    blank above ASCII is a word character. *)
Theorem X18_strip_is_immaterial (text : str) :
  (forall c, Unicode.isspace U c = true -> Unicode.isword U c = false) ->
  char_units U text = findall_az (Unicode.lower U text) /\
  word_units U text = findall_words U (Unicode.lower U text).
Proof.
  intro H. split.
  - unfold char_units, findall_az, _clean_text.
    now rewrite filter_az_strip.
  - unfold word_units, _clean_text. apply findall_strip.
    apply Forall_forall. intros c _. now apply space_inert.
Qed.


(** *** Merging blank lines changes no statistics *)

Import Loader.

Lemma newline_inert : inert U newline = true.
Proof. reflexivity. Qed.

Lemma findall_skip_run (r : str) :
  findall_from U 0 None (skipn (newline_run r) r) = findall_from U 0 None r.
Proof.
  induction r as [|c r IH]; [reflexivity|].
  cbn [newline_run]. destruct (c =? newline)%N eqn:E; [|reflexivity].
  apply N.eqb_eq in E. subst c. cbn [skipn]. rewrite IH.
  symmetry. apply findall_inert_head, newline_inert.
Qed.

Lemma newline_cases (s : str) :
  ~ In newline s \/ exists a t, s = a ++ newline :: t /\ ~ In newline a.
Proof.
  induction s as [|c r IH].
  - left. intros [].
  - destruct (N.eq_dec c newline) as [->|Hc].
    + right. exists [], r. split; [reflexivity | intros []].
    + destruct IH as [H|[a [t [E H]]]].
      * left. intros [X|X]; [congruence | exact (H X)].
      * right. exists (c :: a), t. split; [now subst r|].
        intros [X|X]; [congruence | exact (H X)].
Qed.

Lemma sub_newlines_app (a s : str) :
  ~ In newline a ->
  sub_newlines_from 0 (a ++ s) = a ++ sub_newlines_from 0 s.
Proof.
  induction a as [|c a IH]; intro H; [reflexivity|].
  simpl app. rewrite sub_newlines_at_other.
  - f_equal. apply IH. intro X. apply H. now right.
  - intro X. apply H. now left.
Qed.

Lemma findall_sub_newlines (n : nat) :
  forall s prev, (length s <= n)%nat ->
    findall_from U 0 prev (sub_newlines_from 0 s) = findall_from U 0 prev s.
Proof.
  induction n as [|n IH]; intros s prev Hn.
  - destruct s; [reflexivity | simpl in Hn; lia].
  - destruct (newline_cases s) as [H|[a [t [-> H]]]].
    + assert (E : sub_newlines_from 0 s = s).
      { rewrite <- (app_nil_r s) at 1. rewrite sub_newlines_app by exact H.
        apply app_nil_r. }
      now rewrite E.
    + rewrite sub_newlines_app by exact H. rewrite sub_newlines_at_newline.
      rewrite !(fun t => findall_split U a 0 prev newline t newline_inert
                           (Nat.le_0_l _)).
      f_equal. rewrite IH; [apply findall_skip_run|].
      rewrite length_skipn. rewrite length_app in Hn. simpl in Hn. lia.
Qed.

Lemma filter_az_sub_newlines (s : str) :
  filter is_az (sub_newlines s) = filter is_az s.
Proof.
  assert (R : forall y, filter is_az (remove_char newline y)
                        = filter is_az y).
  { induction y as [|c y IH]; [reflexivity|].
    unfold remove_char in *. cbn [filter].
    destruct (N.eqb_spec c newline) as [->|Hc]; cbn [negb].
    - exact IH.
    - cbn [filter]. now rewrite IH. }
  destruct (sub_newlines_spec (length s) s (le_n _)) as [_ [_ [H _]]].
  unfold sub_newlines. now rewrite <- R, H, R.
Qed.

Lemma ascii_lower_newline (c : N) :
  (Unicode.ascii_lower c =? newline)%N = (c =? newline)%N.
Proof.
  unfold Unicode.ascii_lower, Unicode.between, newline.
  destruct (N.leb_spec 65 c); destruct (N.leb_spec c 90); cbn [andb];
    try reflexivity.
  destruct (N.eqb_spec (c + 32) 10); destruct (N.eqb_spec c 10);
    try reflexivity; lia.
Qed.

Lemma newline_run_lower (s : str) :
  newline_run (map Unicode.ascii_lower s) = newline_run s.
Proof.
  induction s as [|c r IH]; [reflexivity|].
  cbn [map newline_run]. now rewrite ascii_lower_newline, IH.
Qed.

(** Lowering the case and merging the blank lines commute. *)
Lemma sub_newlines_lower (s : str) :
  forall k,
    sub_newlines_from k (map Unicode.ascii_lower s)
    = map Unicode.ascii_lower (sub_newlines_from k s).
Proof.
  induction s as [|c r IH]; intro k; [reflexivity|].
  cbn [map sub_newlines_from]. destruct k as [|k]; [|apply IH].
  change (Unicode.ascii_lower c :: map Unicode.ascii_lower r)
    with (map Unicode.ascii_lower (c :: r)).
  rewrite newline_run_lower.
  destruct (2 <=? newline_run (c :: r))%nat; cbn [map]; f_equal; apply IH.
Qed.

Lemma sub_newlines_Forall (P : N -> Prop) (s : str) :
  forall k, Forall P s -> Forall P (sub_newlines_from k s).
Proof.
  induction s as [|c r IH]; intros k H; [constructor|].
  inversion H as [|? ? Hc Hr]; subst.
  cbn [sub_newlines_from]. destruct k as [|k]; [|now apply IH].
  destruct (2 <=? newline_run (c :: r))%nat eqn:E.
  - constructor; [|now apply IH].
    cbn [newline_run] in E. destruct (N.eqb_spec c newline) as [->|Hn].
    + exact Hc.
    + discriminate.
  - constructor; [exact Hc | now apply IH].
Qed.

Lemma ascii_lower_ascii (s : str) :
  ascii_text s -> ascii_text (map Unicode.ascii_lower s).
Proof.
  unfold ascii_text. induction 1 as [|c r Hc _ IH]; [constructor|].
  cbn [map]. constructor; [|exact IH].
  unfold ascii, Unicode.ascii_lower, Unicode.between in *.
  destruct (N.leb_spec 65 c); destruct (N.leb_spec c 90); cbn [andb]; lia.
Qed.

Lemma ascii_spaces_inert (s : str) :
  ascii_text s ->
  Forall (fun c => Unicode.is_space U c = true -> inert U c = true) s.
Proof.
  apply Forall_impl. intros c Hc. now apply ascii_space_inert.
Qed.

(** What a text of ASCII characters adds. *)
Lemma ascii_units (t : str) :
  ascii_text t ->
  char_units U t = chars_of (filter is_az (map Unicode.ascii_lower t)) /\
  word_units U t = findall_words U (map Unicode.ascii_lower t).
Proof.
  intro H. split.
  - rewrite shakespeare_char_units_filter. now rewrite lower_ascii.
  - unfold word_units, _clean_text. rewrite (lower_ascii U t H).
    apply findall_strip, ascii_spaces_inert. now apply ascii_lower_ascii.
Qed.

Lemma units_sub_newlines (t : str) :
  ascii_text t ->
  char_units U (sub_newlines t) = char_units U t /\
  word_units U (sub_newlines t) = word_units U t.
Proof.
  intro H.
  assert (H' : ascii_text (sub_newlines t))
    by now apply sub_newlines_Forall.
  destruct (ascii_units t H) as [C W].
  destruct (ascii_units (sub_newlines t) H') as [C' W'].
  rewrite C, W, C', W'. unfold sub_newlines.
  rewrite <- !sub_newlines_lower. split.
  - f_equal. apply filter_az_sub_newlines.
  - unfold findall_words. now apply (findall_sub_newlines _ _ None (le_n _)).
Qed.

(** X19. Merging the blank lines of the texts, as [stream_text] does,
    changes no statistics of a corpus of ASCII texts: the analyzer ends in
    the state it would reach on the raw texts. *)
Theorem X19_merging_blank_lines_changes_no_statistics
  (raw : str -> str) (fileids : list str) :
  Forall ascii_text (map raw fileids) ->
  Shakespeare.run U (stream_text raw fileids)
  = Shakespeare.run U (map raw fileids).
Proof.
  intro H. unfold Shakespeare.run. rewrite !shakespeare_feed_eq.
  assert (E : flat_map (char_units U) (stream_text raw fileids)
              = flat_map (char_units U) (map raw fileids) /\
              flat_map (word_units U) (stream_text raw fileids)
              = flat_map (word_units U) (map raw fileids)).
  { unfold stream_text.
    induction fileids as [|f fs IH]; [split; reflexivity|].
    cbn [map] in H. inversion H as [|? ? Hf Hfs]; subst.
    destruct (IH Hfs) as [I1 I2].
    destruct (units_sub_newlines (raw f) Hf) as [C W].
    cbn [map flat_map]. now rewrite I1, I2, C, W. }
  destruct E as [-> ->]. unfold stream_text, len. now rewrite !length_map.
Qed.


(** *** Words are separate pieces of the text *)

Lemma interleave_step (g w : str) (gs ws : list str) :
  interleave (g :: gs) (w :: ws) = g ++ w ++ interleave gs ws.
Proof. reflexivity. Qed.

Lemma interleave_cons (c : N) (g : str) (gs ws : list str) :
  interleave ((c :: g) :: gs) ws = c :: interleave (g :: gs) ws.
Proof. destruct ws; reflexivity. Qed.

(** The scan cuts the text into gaps and words; a word that follows
    another is not adjacent to it, the repetition being greedy. *)
Lemma scan_interleave (n : nat) :
  forall s prev, (length s <= n)%nat ->
    exists g gs,
      length gs = length (findall_from U 0 prev s) /\
      interleave (g :: gs) (findall_from U 0 prev s) = s /\
      Forall (fun x => x <> []) (removelast gs) /\
      (repeat_class U 1 prev s = None ->
       findall_from U 0 prev s <> [] -> g <> []).
Proof.
  induction n as [|n IH]; intros s prev Hn.
  - destruct s; [|simpl in Hn; lia].
    exists [], []. repeat split; try constructor.
    intros _ X. exfalso. now apply X.
  - destruct s as [|c r].
    { exists [], []. repeat split; try constructor.
    intros _ X. exfalso. now apply X. }
    destruct (match_at U prev (c :: r)) as [w|] eqn:M.
    + pose proof (findall_step_match U prev c r w M) as E.
      destruct (match_at_Some U _ _ _ M) as [_ R].
      destruct (repeat_class_sound U _ _ _ _ R) as [_ [L [rest Es]]].
      pose proof (repeat_class_greedy U _ _ _ _ R) as G.
      assert (K : skipn (length w) (c :: r) = rest).
      { rewrite Es, skipn_app, skipn_all, Nat.sub_diag. reflexivity. }
      rewrite K in E, G. rewrite E.
      destruct (IH rest (last_of prev w)) as [g' [gs' [L1 [I1 [F1 Q1]]]]].
      { apply (f_equal (@length N)) in Es. rewrite length_app in Es.
        simpl in Es, Hn. lia. }
      exists [], (g' :: gs'). split; [simpl; now rewrite L1|].
      split; [rewrite interleave_step, I1; now symmetry|]. split.
      * destruct gs' as [|g2 gs2]; [constructor|].
        change (removelast (g' :: g2 :: gs2))
          with (g' :: removelast (g2 :: gs2)).
        constructor; [|exact F1].
        apply Q1; [exact G|]. intro X. rewrite X in L1. discriminate.
      * intros N1 _. exfalso.
        destruct (repeat_class_mono U _ 0 1 prev w R) as [w' Hw']; [lia|].
        congruence.
    + rewrite (findall_step_none U prev c r M).
      destruct (IH r (Some c)) as [g' [gs' [L1 [I1 [F1 _]]]]];
        [simpl in Hn; lia|].
      exists (c :: g'), gs'. split; [exact L1|].
      split; [rewrite interleave_cons; now rewrite I1|].
      split; [exact F1|]. intros _ _. discriminate.
Qed.

Lemma interleave_length (ws : list str) :
  forall g gs,
    length gs = length ws ->
    Forall (fun w => (2 <= length w)%nat) ws ->
    Forall (fun x => x <> []) (removelast gs) ->
    (3 * length ws + Nat.min 1 (length g)
     <= length (interleave (g :: gs) ws) + 1)%nat.
Proof.
  induction ws as [|w ws IH]; intros g gs L W F.
  - cbn [interleave length]. lia.
  - destruct gs as [|g1 gs]; [discriminate|].
    inversion W as [|? ? Hw Hws]; subst.
    rewrite interleave_step, !length_app.
    cbn [length] in L. injection L as L.
    assert (F' : Forall (fun x => x <> []) (removelast gs) /\
                 (ws <> [] -> g1 <> [])).
    { destruct gs as [|g2 gs].
      - split; [constructor|]. intro X. destruct ws; [congruence|].
        discriminate.
      - change (removelast (g1 :: g2 :: gs))
          with (g1 :: removelast (g2 :: gs)) in F.
        inversion F; subst. split; auto. }
    destruct F' as [F1 F2].
    specialize (IH g1 gs L Hws F1).
    destruct ws as [|w2 ws2].
    + cbn [interleave length] in *. lia.
    + assert (X : g1 <> []) by (apply F2; discriminate).
      destruct g1 as [|y g1]; [congruence|].
      cbn [length] in *. lia.
Qed.

(** X20. The words [re.findall] returns are separate pieces of the text,
    in the order of the text: the text is a gap, then each word followed
    by a gap, and between two words the gap is not empty. So a text holds
    at most a third of its length, and one, in words. *)
Theorem X20_words_are_separate_pieces (text : str) :
  exists g gs,
    length gs = length (findall_words U text) /\
    interleave (g :: gs) (findall_words U text) = text /\
    Forall (fun x => x <> []) (removelast gs) /\
    (3 * length (findall_words U text) <= length text + 1)%nat.
Proof.
  unfold findall_words.
  destruct (scan_interleave (length text) text None (le_n _))
    as [g [gs [L [I [F _]]]]].
  exists g, gs. repeat split; try assumption.
  assert (W : Forall (fun w => (2 <= length w)%nat)
                (findall_from U 0 None text)).
  { apply Forall_forall. intros w Hw.
    now destruct (findall_in_class U _ _ _ _ Hw). }
  pose proof (interleave_length _ g gs L W F) as B.
  rewrite I in B. lia.
Qed.

End WordsMore.

(** ** The figure of [SHAKESPEARE.py] *)

Section PlotFacts.
Import PyFloat Charts.
Local Open Scope R_scope.
Variable U : Unicode.table.

Lemma most_common_values (n : Z) (c : Counter.t) :
  map snd (most_common n c)
  = firstn (Z.to_nat n) (sorted_reverse (Counter.values c)).
Proof.
  unfold most_common. now rewrite <- sorted_items_values, firstn_map.
Qed.

Lemma most_common_length (n : Z) (c : Counter.t) :
  length (most_common n c) = Nat.min (Z.to_nat n) (length c).
Proof.
  unfold most_common.
  now rewrite length_firstn,
    (Permutation_length (sorted_items_Permutation c)).
Qed.

Lemma update_nonempty (xs : list str) :
  xs <> [] -> Counter.update Counter.empty xs <> [].
Proof.
  intros H E. pose proof (filled_table xs) as T. cbv zeta in T.
  destruct T as [_ [S _]]. rewrite E in S.
  destruct xs as [|x xs]; [congruence|].
  unfold len in S. cbn in S. lia.
Qed.

Lemma unzip_most_common (c : Counter.t) :
  c <> [] ->
  unzip (most_common 20 c)
  = Ok (map fst (most_common 20 c), map snd (most_common 20 c)).
Proof.
  intro H. unfold unzip. destruct (most_common 20 c) eqn:E; [|reflexivity].
  exfalso. apply (f_equal (@length _)) in E. unfold most_common in E.
  rewrite length_firstn, (Permutation_length (sorted_items_Permutation c))
    in E.
  change (Z.to_nat 20) with 20%nat in E.
  destruct c; [congruence|]. cbn [length] in E. lia.
Qed.

Lemma len_zero (A : Type) (xs : list A) : len xs = 0%Z -> xs = [].
Proof.
  destruct xs; [reflexivity|]. unfold len. cbn [length]. lia.
Qed.

Lemma len_pos (A : Type) (xs : list A) : (0 < len xs)%Z -> xs <> [].
Proof.
  intros H E. subst. unfold len in H. cbn [length] in H. lia.
Qed.

(** X21. [create_plots] on the analyzer of a run, in exact arithmetic:
    when no letter or no word has been counted it raises [ValueError]
    (there is nothing to unpack); otherwise it returns, the entropies of
    the titles are those the main program printed, the bars of the
    letters are the first twenty points of the rank-frequency series drawn
    below them, and the horizontal bars of the words are the first twenty
    points of theirs, last first. *)
Theorem X21_create_plots_outcomes (texts : list str) :
  let a := Shakespeare.run U texts in
  let nc := Shakespeare.chars (Shakespeare.counts a) in
  let nw := Shakespeare.words (Shakespeare.counts a) in
  (0 <= nc /\ 0 <= nw)%Z /\
  ((nc = 0 \/ nw = 0)%Z -> create_plots (F:=R) a = Raise ValueError) /\
  ((0 < nc)%Z -> (0 < nw)%Z ->
   exists p : plots,
     create_plots a = Ok p /\
     Report.shakespeare a = Ok (ax1_entropy p, ax2_entropy p) /\
     snd (ax1_bar p) = firstn 20 (snd (ax3_loglog p)) /\
     rev (snd (ax2_barh p)) = firstn 20 (snd (ax4_loglog p)) /\
     length (fst (ax1_bar p)) = length (snd (ax1_bar p)) /\
     length (fst (ax2_barh p)) = length (snd (ax2_barh p)) /\
     (1 <= length (snd (ax1_bar p)) <= 20)%nat /\
     (1 <= length (snd (ax2_barh p)) <= 20)%nat).
Proof.
  pose proof smoothing_pos as Hs.
  unfold Shakespeare.run. rewrite shakespeare_feed_eq.
  cbn [Shakespeare.char_stats Shakespeare.word_stats Shakespeare.counts
       Shakespeare.chars Shakespeare.words Shakespeare.init].
  rewrite !Z.add_0_l.
  generalize (flat_map (Shakespeare.char_units U) texts) as xs.
  generalize (flat_map (Shakespeare.word_units U) texts) as ys.
  intros ys xs. cbv zeta.
  unfold create_plots, Report.shakespeare.
  cbn [Shakespeare.char_stats Shakespeare.word_stats Shakespeare.counts
       Shakespeare.chars Shakespeare.words].
  rewrite !shakespeare_entropy_eq.
  rewrite !(entropy_of_filled _ _ Hs).
  split; [split; apply len_nonneg|]. split.
  - intros [H|H].
    + apply len_zero in H. subst xs. reflexivity.
    + apply len_zero in H. subst ys.
      destruct xs as [|x xs]; [reflexivity|].
      rewrite (unzip_most_common (Counter.update Counter.empty (x :: xs)))
        by (apply update_nonempty; discriminate).
      reflexivity.
  - intros Hc Hw. apply len_pos in Hc. apply len_pos in Hw.
    pose proof (update_nonempty xs Hc) as Nc.
    pose proof (update_nonempty ys Hw) as Nw.
    rewrite (unzip_most_common _ Nc), (unzip_most_common _ Nw).
    cbn [bind]. eexists. split; [reflexivity|].
    cbn [ax1_bar ax1_entropy ax2_barh ax2_entropy ax3_loglog ax4_loglog
         fst snd Shakespeare.zipf].
    rewrite rev_involutive, !most_common_values, !length_rev, !length_map.
    change (Z.to_nat 20) with 20%nat.
    repeat split; try reflexivity.
    all: rewrite ?length_firstn, ?most_common_length,
           ?(Permutation_length (sorted_reverse_Permutation _)).
    all: change (Z.to_nat 20) with 20%nat.
    all: unfold Counter.values; rewrite ?length_map.
    all: destruct (Counter.update Counter.empty xs); try congruence.
    all: destruct (Counter.update Counter.empty ys); try congruence.
    all: cbn [length]; lia.
Qed.

End PlotFacts.

(** ** Letters and words *)

Section LettersAndWords.
Import Shakespeare Units.
Variable U : Unicode.table.

Lemma filter_last_length (A : Type) (f : A -> bool) (d : A) (l : list A) :
  l <> [] -> f (last l d) = true -> (1 <= length (filter f l))%nat.
Proof.
  induction l as [|x l IH]; [congruence|]. intros _ H.
  destruct l as [|y l].
  - cbn [last] in H. cbn [filter]. rewrite H. cbn [length]. lia.
  - change (last (x :: y :: l) d) with (last (y :: l) d) in H.
    pose proof (IH ltac:(discriminate) H).
    change (filter f (x :: y :: l))
      with (if f x then x :: filter f (y :: l) else filter f (y :: l)).
    destruct (f x); cbn [length]; lia.
Qed.

(** A well-shaped word holds two letters at least: its first character
    and its last. *)
Lemma well_shaped_letters (w : str) :
  well_shaped w = true -> (2 <= length (filter is_az w))%nat.
Proof.
  unfold well_shaped. intro H.
  apply andb_prop in H. destruct H as [H Hl].
  apply andb_prop in H. destruct H as [H Hh].
  apply andb_prop in H. destruct H as [H2 _].
  apply Nat.leb_le in H2.
  destruct w as [|c [|d w]]; cbn [length] in H2; try lia.
  cbn [hd] in Hh.
  change (last (c :: d :: w) 0%N) with (last (d :: w) 0%N) in Hl.
  pose proof (filter_last_length _ is_az 0%N (d :: w)
                ltac:(discriminate) Hl).
  change (filter is_az (c :: d :: w))
    with (if is_az c then c :: filter is_az (d :: w)
          else filter is_az (d :: w)).
  rewrite Hh. cbn [length]. lia.
Qed.

Lemma filter_interleave_length (f : N -> bool) (k : nat) (ws : list str) :
  forall gs,
    (length ws < length gs)%nat ->
    Forall (fun w => (k <= length (filter f w))%nat) ws ->
    (k * length ws <= length (filter f (interleave gs ws)))%nat.
Proof.
  induction ws as [|w ws IH]; intros gs L W.
  - cbn [length]. lia.
  - destruct gs as [|g gs]; [cbn [length] in L; lia|].
    inversion W as [|? ? Hw Hws]; subst.
    rewrite interleave_step, !filter_app, !length_app.
    cbn [length] in L.
    pose proof (IH gs ltac:(lia) Hws). cbn [length]. lia.
Qed.

(** In a plain text there are two letters for every word. *)
Lemma plain_text_letters (s : str) :
  plain U s ->
  (2 * length (findall_words U s) <= length (findall_az s))%nat.
Proof.
  intro Hp. unfold findall_words, findall_az, chars_of. rewrite length_map.
  destruct (scan_interleave U (length s) s None (le_n _))
    as [g [gs [L [E _]]]].
  rewrite <- E at 2. apply filter_interleave_length.
  - cbn [length]. lia.
  - apply Forall_forall. intros w Hw. apply well_shaped_letters.
    apply (scan_well_shaped U (length s) s None); try assumption;
      try exact I. lia.
Qed.

(** X22. On a corpus whose cleaned texts have no word character besides
    the letters [a-z], [SHAKESPEARE.py] counts at least two letters for
    every word: [2 * counts['words'] <= counts['chars']]. *)
Theorem X22_two_letters_per_word (texts : list str) :
  Forall (fun t => plain U (_clean_text U t)) texts ->
  let a := Shakespeare.run U texts in
  (2 * Shakespeare.words (counts a) <= Shakespeare.chars (counts a))%Z.
Proof.
  intro H. unfold Shakespeare.run. rewrite shakespeare_feed_eq.
  cbn [counts Shakespeare.chars Shakespeare.words Shakespeare.init].
  rewrite !Z.add_0_l. unfold len.
  induction H as [|t ts Ht _ IH]; [cbn [flat_map length]; lia|].
  cbn [flat_map]. rewrite !length_app.
  assert (P : (2 * length (word_units U t) <= length (char_units U t))%nat)
    by exact (plain_text_letters _ Ht).
  lia.
Qed.

End LettersAndWords.

(** ** The segmenter of [Chinese.py] *)

Section SegmenterFacts.
Import Units.
Variable lcut : str -> list str.

Lemma concat_split (sep : N) (s : str) :
  concat (filter truthy (split sep s)) = remove_char sep s.
Proof.
  assert (T : forall l : list str, concat (filter truthy l) = concat l).
  { induction l as [|f l IH]; [reflexivity|].
    destruct f; cbn [filter truthy concat app]; now rewrite IH. }
  rewrite T. unfold remove_char.
  induction s as [|c r IH]; [reflexivity|].
  cbn [split filter]. destruct (c =? sep)%N; cbn [negb].
  - exact IH.
  - destruct (split sep r) as [|f fs]; cbn [concat app] in *;
      now rewrite <- IH.
Qed.

(** The sentences of a block, joined, are its cleaned text without the
    terminators. *)
Lemma sentences_joined (text : str) :
  concat (Chinese.sentence_units text)
  = remove_char Chinese.full_stop (Chinese.clean text).
Proof. apply concat_split. Qed.

Lemma stripped_han (text : str) :
  Forall han (remove_char Chinese.full_stop (Chinese.clean text)).
Proof.
  apply Forall_forall. intros c Hc. apply counted_han.
  unfold remove_char, Chinese.clean in Hc.
  apply filter_In in Hc. destruct Hc as [Hc H2].
  apply filter_In in Hc. destruct Hc as [_ H1].
  unfold counted. now rewrite H1, H2.
Qed.

(** X23. The text [Chinese.py] hands to [jieba.lcut] is the sentences of
    the block, joined: a string of characters from U+4E00 to U+9FA5 only,
    as long as the number of characters the block adds to
    [total_chars]. *)
Theorem X23_segmenter_input (text : str) :
  Chinese.word_units lcut text
  = lcut (concat (Chinese.sentence_units text)) /\
  Forall han (concat (Chinese.sentence_units text)) /\
  len (concat (Chinese.sentence_units text))
  = len (Chinese.char_units text).
Proof.
  rewrite sentences_joined. split; [reflexivity|].
  split; [apply stripped_han|].
  unfold Chinese.char_units, chars_of, len. now rewrite length_map.
Qed.

Lemma sum_lengths_concat (xs : list str) :
  sum (map (@len N) xs) = len (concat xs).
Proof.
  induction xs as [|x xs IH]; [reflexivity|].
  cbn [map concat]. rewrite sum_cons, len_app, IH. reflexivity.
Qed.

Lemma concat_flat_map (A B : Type) (f : A -> list (list B)) (l : list A) :
  concat (flat_map f l) = flat_map (fun x => concat (f x)) l.
Proof.
  induction l as [|x l IH]; [reflexivity|].
  cbn [flat_map]. now rewrite concat_app, IH.
Qed.

(** X24. With a segmenter that cuts its text into pieces, none of them
    empty, the words of [Chinese.py] cover the characters it counts: the
    lengths of the words, each taken as often as the word table counts it,
    add up to [total_chars]; there are at most as many words as
    characters; and every key of the word table is a non-empty string of
    characters from U+4E00 to U+9FA5. *)
Theorem X24_words_cover_the_characters (blocks : list str) :
  (forall s, concat (lcut s) = s) ->
  (forall s, ~ In [] (lcut s)) ->
  let p := Chinese.run lcut blocks in
  Counter.weight (Chinese.word_counter p) = Chinese.total_chars p /\
  (Chinese.total_words p <= Chinese.total_chars p)%Z /\
  (forall w, In w (Counter.keys (Chinese.word_counter p)) ->
             w <> [] /\ Forall han w).
Proof.
  intros Hcat Hne. unfold Chinese.run. rewrite chinese_feed_eq.
  cbn [Chinese.word_counter Chinese.total_chars Chinese.total_words
       Chinese.init].
  rewrite !Z.add_0_l.
  assert (E : sum (map (@len N) (flat_map (Chinese.word_units lcut) blocks))
              = len (flat_map Chinese.char_units blocks)).
  { rewrite sum_lengths_concat, concat_flat_map.
    induction blocks as [|b bs IH]; [reflexivity|].
    cbn [flat_map]. rewrite !len_app, IH. f_equal.
    unfold Chinese.word_units, Chinese.char_units, chars_of, len.
    now rewrite Hcat, length_map. }
  assert (W : forall w, In w (flat_map (Chinese.word_units lcut) blocks) ->
                        w <> [] /\ Forall han w).
  { intros w Hw. apply in_flat_map in Hw. destruct Hw as [b [_ Hw]].
    unfold Chinese.word_units in Hw. split.
    - intros ->. exact (Hne _ Hw).
    - pose proof (stripped_han b) as Hh. rewrite <- Hcat in Hh.
      rewrite Forall_forall in *. intros c Hc. apply Hh.
      apply in_concat. exists w. now split. }
  split; [|split].
  - rewrite weight_update, E. reflexivity.
  - rewrite <- E. apply len_le_sum_lengths.
    apply Forall_forall. intros w Hw. now apply W.
  - intros w Hw. apply keys_update in Hw. destruct Hw as [Hw|[]].
    now apply W.
Qed.

End SegmenterFacts.

(** The segmenter of the examples cuts its text into pieces of one
    character. *)
Lemma lcut_chars_pieces (s : str) :
  concat (Chinese.lcut_chars s) = s /\ ~ In [] (Chinese.lcut_chars s).
Proof.
  unfold Chinese.lcut_chars, chars_of. split.
  - induction s as [|c s IH]; [reflexivity|].
    cbn [map concat app]. now rewrite IH.
  - intro H. apply in_map_iff in H. destruct H as [c [H _]]. discriminate.
Qed.

(** ** The models at concrete inputs *)

(** [Counter("abracadabra").most_common(2)]: of the letters [b] and [r],
    both counted twice, the one met first comes first. *)
Example most_common_example :
  let c := Counter.update Counter.empty (chars_of (u "abracadabra")) in
  Charts.most_common 2 c = [(u "a", 5%Z); (u "b", 2%Z)] /\
  Charts.most_common 20 c
  = [(u "a", 5%Z); (u "b", 2%Z); (u "r", 2%Z); (u "c", 1%Z); (u "d", 1%Z)] /\
  Charts.most_common 0 c = [] /\
  Charts.unzip (Charts.most_common 20 Counter.empty)
  = PyFloat.Raise PyFloat.ValueError.
Proof. repeat split; reflexivity. Qed.

(** [re.sub(r'\n{2,}', '\n', "a\n\n\nb\nc\n\n")] is ["a\nb\nc\n"]. *)
Example sub_newlines_example :
  Loader.sub_newlines [97; 10; 10; 10; 98; 10; 99; 10; 10]%N
  = [97; 10; 98; 10; 99; 10]%N.
Proof. reflexivity. Qed.

(** ASCII texts are recognised character by character. *)
Lemma ascii_texts_forallb (texts : list (list N)) :
  forallb (forallb (fun c => (c <? 128)%N)) texts = true ->
  Forall Units.ascii_text texts.
Proof.
  intro H. apply Forall_forall. intros t Ht.
  rewrite forallb_forall in H. specialize (H t Ht).
  apply Forall_forall. intros c Hc.
  rewrite forallb_forall in H. apply N.ltb_lt. now apply H.
Qed.

(** X7 on two short lines. *)
Lemma X7_fold_case_witness :
  let texts := [u "To be, or not TO BE"; u "O, ho!"] in
  let a := Shakespeare.run Unicode.ascii_only texts in
  Counter.get (Shakespeare.char_stats a) (u "o")
  = Z.of_nat (count_occ N.eq_dec (concat texts) 111%N
              + count_occ N.eq_dec (concat texts) 79%N) /\
  Shakespeare.chars (Shakespeare.counts a)
  = len (filter Units.is_letter (concat texts)).
Proof.
  apply (X7_shakespeare_counts_fold_case Unicode.ascii_only
           [u "To be, or not TO BE"; u "O, ho!"] 111%N).
  - apply ascii_texts_forallb. vm_compute. reflexivity.
  - reflexivity.
Defined.

(** X17 at a comma. *)
Lemma X17_comma_witness :
  Units.inert Unicode.ascii_only 44%N = true /\
  Shakespeare.findall_words Unicode.ascii_only
    (u "to be" ++ 44%N :: u " or not")
  = Shakespeare.findall_words Unicode.ascii_only (u "to be")
    ++ Shakespeare.findall_words Unicode.ascii_only (u " or not").
Proof.
  split; [reflexivity|].
  apply (X17_words_do_not_span_inert Unicode.ascii_only
           (u "to be") (u " or not") 44%N).
  reflexivity.
Defined.

(** X18 on a line with blanks at both ends. *)
Lemma X18_strip_witness :
  let text := u "  To be, or NOT  " in
  Shakespeare.char_units Unicode.ascii_only text
  = Shakespeare.findall_az (Unicode.lower Unicode.ascii_only text) /\
  Shakespeare.word_units Unicode.ascii_only text
  = Shakespeare.findall_words Unicode.ascii_only
      (Unicode.lower Unicode.ascii_only text).
Proof.
  apply (X18_strip_is_immaterial Unicode.ascii_only (u "  To be, or NOT  ")).
  intros c _. reflexivity.
Defined.

(** X19 on two texts with blank lines. *)
Lemma X19_blank_lines_witness :
  let raw := fun fileid : list N => fileid ++ [10; 10; 10]%N ++ u "The End" in
  let fileids := [u "to be"; u "or not"] in
  Shakespeare.run Unicode.ascii_only (Loader.stream_text raw fileids)
  = Shakespeare.run Unicode.ascii_only (map raw fileids).
Proof.
  apply (X19_merging_blank_lines_changes_no_statistics Unicode.ascii_only
           (fun fileid : list N => fileid ++ [10; 10; 10]%N ++ u "The End")
           [u "to be"; u "or not"]).
  apply ascii_texts_forallb. vm_compute. reflexivity.
Defined.

(** X22 on a line with apostrophes. *)
Lemma X22_letters_witness :
  let a := Shakespeare.run Unicode.ascii_only [u " Don't say 'tis so' "] in
  (2 * Shakespeare.words (Shakespeare.counts a)
   <= Shakespeare.chars (Shakespeare.counts a))%Z.
Proof.
  apply (X22_two_letters_per_word Unicode.ascii_only
           [u " Don't say 'tis so' "]).
  constructor; [apply plain_forallb; reflexivity | constructor].
Defined.

(** X24 with the segmenter of the examples. *)
Lemma X24_words_cover_witness :
  let p := Chinese.run Chinese.lcut_chars [u "中文。中"; u "文 (wen)。"] in
  Counter.weight (Chinese.word_counter p) = Chinese.total_chars p /\
  (Chinese.total_words p <= Chinese.total_chars p)%Z /\
  (forall w, In w (Counter.keys (Chinese.word_counter p)) ->
             w <> [] /\ Forall Units.han w).
Proof.
  apply (X24_words_cover_the_characters Chinese.lcut_chars
           [u "中文。中"; u "文 (wen)。"]).
  - intro s. exact (proj1 (lcut_chars_pieces s)).
  - intro s. exact (proj2 (lcut_chars_pieces s)).
Defined.
